(** * Bridge front-end: fee-quote handler and token/amount selection form

    A shallow embedding of the two source files of the repository:

    - [src/api/index.js]: the serverless fee-quote handler ([handler],
      [getTokenDetails], [isString]);
    - the [CoinSelection] form component ([handleChange], the
      insufficient-balance effect, [handleMaxClick], [errorMsg],
      [showError]).

    Asynchronous code is written in a small exception monad that also
    records, in order, every call that leaves the handler.  React state and
    the send store are one record threaded through the event handlers. *)

From Stdlib Require Import ZArith List String Ascii Lia Permutation Sorted.
From stdpp Require Import base option list strings pretty.

Local Open Scope string_scope.
Local Open Scope Z_scope.

(** ** Decimal strings of [ethers] *)

Module Ethers.

Definition is_digit (c : ascii) : bool :=
  (48 <=? nat_of_ascii c)%nat && (nat_of_ascii c <=? 57)%nat.

Definition is_dot (c : ascii) : bool := Ascii.eqb c ".".

(** The character class of [/^-?[0-9.]+$/] after the optional sign. *)
Fixpoint all_decimal_chars (s : string) : bool :=
  match s with
  | EmptyString => true
  | String c r => (is_digit c || is_dot c) && all_decimal_chars r
  end.

(** [BigNumber.from] on a string of decimal digits. *)
Fixpoint digits_value (acc : Z) (s : string) : Z :=
  match s with
  | EmptyString => acc
  | String c r => digits_value (10 * acc + Z.of_nat (nat_of_ascii c - 48)) r
  end.

(** [value.split(".")] *)
Fixpoint split_dot (s : string) : list string :=
  match s with
  | EmptyString => [EmptyString]
  | String c r =>
      match split_dot r with
      | h :: t => if is_dot c then EmptyString :: h :: t else String c h :: t
      | [] => [String c EmptyString]
      end
  end.

(** Removal of the trailing zeros of a fraction. *)
Fixpoint trim_trailing_zeros (s : string) : string :=
  match s with
  | EmptyString => EmptyString
  | String c r =>
      let r' := trim_trailing_zeros r in
      if Ascii.eqb c "0" && String.eqb r' "" then EmptyString else String c r'
  end.

Definition or_zero (s : string) : string := if String.eqb s "" then "0" else s.

(** Modelled from the spec: [parseUnits] (re-exported by the absent [utils]
    module, and behind [ethers.utils.parseEther]) is not among the sources;
    the spec describes it as parsing "a decimal string scaled by the token's
    decimal count".  [None] stands for a thrown exception: a string that is
    not an optionally signed decimal, or one with more significant
    fractional digits than [decimals]. *)
Definition parseUnits (value : string) (decimals : nat) : option Z :=
  let '(negative, value) :=
    match value with
    | String "-" r => (true, r)
    | _ => (false, value)
    end in
  if String.eqb value "" || negb (all_decimal_chars value) || String.eqb value "."
  then None
  else
    match split_dot value with
    | [whole] | [whole; EmptyString] =>
        let wei := digits_value 0 (or_zero whole) * 10 ^ Z.of_nat decimals in
        Some (if negative : bool then - wei else wei)
    | [whole; fraction] =>
        let fraction := trim_trailing_zeros fraction in
        if (decimals <? String.length fraction)%nat then None
        else
          let wei :=
            digits_value 0 (or_zero whole) * 10 ^ Z.of_nat decimals
            + digits_value 0 fraction
              * 10 ^ Z.of_nat (decimals - String.length fraction) in
          Some (if negative : bool then - wei else wei)
    | _ => None
    end.

(** [ethers.utils.parseEther(s)] is [parseUnits(s, 18)]. *)
Definition parseEther (ether : string) : option Z := parseUnits ether 18.

Fixpoint zeros (n : nat) : string :=
  match n with
  | O => EmptyString
  | S n' => String "0" (zeros n')
  end.

(** Modelled from the spec: [formatUnits] (absent [utils] module) renders an
    amount in smallest units as a decimal string at the given precision,
    without trailing zeros in the fraction. *)
Definition formatUnits (value : Z) (decimals : nat) : string :=
  let multiplier := 10 ^ Z.of_nat decimals in
  let magnitude := Z.abs value in
  let whole := pretty (Z.to_N (magnitude / multiplier)) in
  let digits := pretty (Z.to_N (magnitude mod multiplier)) in
  let fraction :=
    or_zero (trim_trailing_zeros
               (zeros (decimals - String.length digits) ++ digits)) in
  let body := match decimals with O => whole | _ => whole ++ "." ++ fraction end in
  if value <? 0 then "-" ++ body else body.

End Ethers.

(** ** The fee-quote handler, [src/api/index.js] *)

Module Api.

(** A query parameter as the serverless framework delivers it: absent, one
    string, or an array of strings when the key is repeated. *)
Inductive QueryValue : Type :=
| QUndefined
| QString (s : string)
| QArray (ss : list string).

Record Query := { amount : QueryValue; l2Token : QueryValue; chainId : QueryValue }.

Record Request := { query : Query }.

(** The request whose query holds the three parameters. *)
Definition request_of (amount l2Token chainId : QueryValue) : Request :=
  {| query := {| amount := amount; l2Token := l2Token; chainId := chainId |} |}.

(** [const isString = (input) => typeof input === "string"] *)
Definition isString (input : QueryValue) : bool :=
  match input with
  | QString _ => true
  | _ => false
  end.

(** The string carried by a parameter that passed [isString]. *)
Definition string_of (input : QueryValue) : string :=
  match input with
  | QString s => s
  | _ => ""
  end.

(** [event.args] of a [WhitelistToken] log; [chainId] is a [BigNumber]. *)
Record WhitelistArgs := {
  args_chainId : N;
  args_l1Token : string;
  args_l2Token : string
}.

(** A log entry; the three positions are non-negative JavaScript integers,
    far below 2^53, so their differences are exact. *)
Record Event := {
  args : WhitelistArgs;
  blockNumber : Z;
  transactionIndex : Z;
  logIndex : Z
}.

Record FeeQuote := { pct : string }.

Record DepositFeeDetails := { slow : FeeQuote; instant : FeeQuote }.

Record ResponseJson := { slowFeePct : string; fastFeePct : string }.

(** [response.status(code).json(body)] *)
Record Response := { status : Z; json : ResponseJson }.

Record Provider := { connection_url : string }.

(** What the handler does to the outside, in program order.  Building the
    provider object and connecting the contract wrapper are constructor
    calls; the event query and the fee computation go to the network. *)
Inductive Call : Type :=
| NewJsonRpcProvider (url : string)
| QueryFilter (l2Token : string)
| GetDepositFeesDetails (amount l1Token : string).

Definition is_network_call (c : Call) : bool :=
  match c with
  | NewJsonRpcProvider _ => false
  | QueryFilter _ | GetDepositFeesDetails _ _ => true
  end.

(** A settled promise: fulfilled with a value, or rejected with the message
    of the thrown [Error]. *)
Inductive Outcome (A : Type) : Type :=
| Fulfilled (a : A)
| Rejected (message : string).
Arguments Fulfilled {A} a.
Arguments Rejected {A} message.

(** An [async] computation: it extends the trace of calls and settles. *)
Definition Async (A : Type) : Type := list Call → Outcome A * list Call.

Definition resolve {A} (a : A) : Async A := λ tr, (Fulfilled a, tr).

Definition throw {A} (message : string) : Async A := λ tr, (Rejected message, tr).

Definition await {A B} (m : Async A) (k : A → Async B) : Async B :=
  λ tr,
    match m tr with
    | (Fulfilled a, tr') => k a tr'
    | (Rejected msg, tr') => (Rejected msg, tr')
    end.

(** A call that leaves the handler: recorded, then settled by the callee. *)
Definition perform {A} (c : Call) (answer : Outcome A) : Async A :=
  λ tr, (answer, (tr ++ [c])%list).

Notation "'let!' x ':=' m 'in' k" := (await m (λ x, k))
  (at level 10, x name, m at level 100, k at level 200).

(** [Array.prototype.sort(compare)]: the sort is stable, and [a] is placed
    before [b] when [compare(a, b) < 0].  For a consistent comparator every
    stable sort returns the same array; this is insertion from the right. *)
Section Sort.
Context {A : Type} (compare : A → A → Z).

Fixpoint insert (a : A) (l : list A) : list A :=
  match l with
  | [] => [a]
  | b :: l' => if compare a b <=? 0 then a :: b :: l' else b :: insert a l'
  end.

Definition sort (l : list A) : list A := foldr insert [] l.

(** [a] may stand before [b] in the sorted array. *)
Definition before (a b : A) : Prop := compare a b ≤ 0.

End Sort.

(** The comparator of [getTokenDetails], "from most recent to oldest". *)
Definition compareEvents (a b : Event) : Z :=
  if negb (blockNumber b =? blockNumber a) then blockNumber b - blockNumber a
  else if negb (transactionIndex b =? transactionIndex a)
       then transactionIndex b - transactionIndex a
       else logIndex b - logIndex a.

(** The order of the spec on log positions: block number, then transaction
    index, then log index. *)
Definition position (e : Event) : Z * Z * Z :=
  (blockNumber e, transactionIndex e, logIndex e).

Definition lex_le (p q : Z * Z * Z) : Prop :=
  let '(b1, t1, l1) := p in
  let '(b2, t2, l2) := q in
  b1 < b2 ∨ (b1 = b2 ∧ (t1 < t2 ∨ (t1 = t2 ∧ l1 ≤ l2))).

(** [event.args.chainId.toString() === chainId] *)
Definition chainId_matches (chainId : string) (event : Event) : bool :=
  String.eqb (pretty (args_chainId (args event))) chainId.

Section Handler.

(** [process.env.REACT_APP_PUBLIC_INFURA_ID] *)
Variable REACT_APP_PUBLIC_INFURA_ID : string.

(** [sdk.across.constants.ADDRESSES.WETH] and [.ETH], constants of the SDK. *)
Variables WETH ETH : string.

(** [ethers.utils.isAddress]: whether ethers takes the string for an
    address.  Encoding an indexed address of a filter throws for every other
    string, with the message [invalidAddress value]. *)
Variable isAddress : string → bool.
Variable invalidAddress : string → string.

(** The node's answer to
    [queryFilter(filters.WhitelistToken(undefined, undefined, l2Token), 0, "latest")]. *)
Variable queryFilter : string → Outcome (list Event).

(** The SDK's answer to [gasFeeCalculator.getDepositFeesDetails(provider, amount, token)]. *)
Variable getDepositFeesDetails : string → string → Outcome DepositFeeDetails.

Definition newJsonRpcProvider (url : string) : Async Provider :=
  perform (NewJsonRpcProvider url) (Fulfilled {| connection_url := url |}).

(** [.filter((event) => event.args.chainId.toString() === chainId)]; the
    node has already kept the events of the requested L2 token only. *)
Definition matching_events (chainId : string) (log : list Event) : list Event :=
  List.filter (chainId_matches chainId) log.

(** [bridgeAdmin.filters.WhitelistToken(undefined, undefined, l2Token)]: the
    filter, named by the L2 token it selects; no call leaves the handler. *)
Definition WhitelistToken (l2Token : string) : Async string :=
  if isAddress l2Token then resolve l2Token else throw (invalidAddress l2Token).

Definition getTokenDetails (provider : Provider) (l2Token chainId : string)
  : Async WhitelistArgs :=
  let! l2TokenFilter := WhitelistToken l2Token in
  let! log := perform (QueryFilter l2TokenFilter) (queryFilter l2TokenFilter) in
  let events := matching_events chainId log in
  if (length events =? 0)%nat then throw "No whitelisted token found"
  else
    let events := sort compareEvents events in
    match head events with
    | Some event => resolve (args event)
    | None => throw "TypeError: Cannot read properties of undefined"
    end.

Definition handler (request : Request) : Async Response :=
  let! provider :=
    newJsonRpcProvider ("https://mainnet.infura.io/v3/" ++ REACT_APP_PUBLIC_INFURA_ID) in
  let amount := amount (query request) in
  let l2Token := l2Token (query request) in
  let chainId := chainId (query request) in
  if negb (isString amount) || negb (isString l2Token) || negb (isString chainId)
  then throw "Must provide amount and token as query params"
  else
    let! details := getTokenDetails provider (string_of l2Token) (string_of chainId) in
    let l1Token := args_l1Token details in
    let l1Token := if String.eqb l1Token WETH then WETH else l1Token in
    let! depositFeeDetails :=
      perform
        (GetDepositFeesDetails (string_of amount)
           (if String.eqb l1Token WETH then ETH else l1Token))
        (getDepositFeesDetails (string_of amount)
           (if String.eqb l1Token WETH then ETH else l1Token)) in
    let responseJson :=
      {| slowFeePct := pct (slow depositFeeDetails);
         fastFeePct := pct (instant depositFeeDetails) |} in
    resolve {| status := 200; json := responseJson |}.

(** A finished invocation, started with an empty trace. *)
Definition run {A} (m : Async A) : Outcome A * list Call := m [].

End Handler.

End Api.

(** ** The token and amount selection form, [CoinSelection] *)

Module CoinSelection.

(** An entry of the bridgeable-token list. *)
Record Token := {
  address : string;
  symbol : string;
  name : string;
  logoURI : string;
  decimals : nat
}.

(** The fee quote of the send store, as far as the form reads it. *)
Record Fees := { isAmountTooLow : bool; isLiquidityInsufficient : bool }.

(** The two kinds of error object the form stores: [new ParsingError()] and
    [new Error(message)]; [instanceof ParsingError] tells them apart. *)
Inductive FormError : Type :=
| ParsingError
| Error (message : string).

Definition instanceof_ParsingError (e : option FormError) : bool :=
  match e with
  | Some ParsingError => true
  | _ => false
  end.

(** The send store ([amount], [token], [fees]), the hooks' data
    ([tokenList], [balances], [selectedItem]) and the component's own state
    ([error], [inputAmount]).  [amount] is always a [BigNumber] object and
    [balances], when loaded, an array of [BigNumber]s: both kinds of object
    are truthy whatever their value. *)
Record State := {
  amount : Z;
  token : string;
  fees : option Fees;
  tokenList : list Token;
  balances : option (list Z);
  selectedItem : option Token;
  error : option FormError;
  inputAmount : string
}.

Definition setAmount (a : Z) (st : State) : State :=
  {| amount := a; token := token st; fees := fees st; tokenList := tokenList st;
     balances := balances st; selectedItem := selectedItem st;
     error := error st; inputAmount := inputAmount st |}.

Definition setError (e : option FormError) (st : State) : State :=
  {| amount := amount st; token := token st; fees := fees st;
     tokenList := tokenList st; balances := balances st;
     selectedItem := selectedItem st; error := e; inputAmount := inputAmount st |}.

Definition setInputAmount (s : string) (st : State) : State :=
  {| amount := amount st; token := token st; fees := fees st;
     tokenList := tokenList st; balances := balances st;
     selectedItem := selectedItem st; error := error st; inputAmount := s |}.

(** [const FEE_ESTIMATION = ".004"] *)
Definition FEE_ESTIMATION : string := ".004".

(** [Array.prototype.findIndex]: the first index whose element satisfies the
    predicate, [-1] when there is none. *)
Fixpoint findIndex_from {A} (p : A → bool) (l : list A) (i : Z) : Z :=
  match l with
  | [] => -1
  | x :: l' => if p x then i else findIndex_from p l' (i + 1)
  end.

Definition findIndex {A} (p : A → bool) (l : list A) : Z := findIndex_from p l 0.

(** [array[i]] for an integer [i]: [undefined] outside the array, also at
    [-1]. *)
Definition at_index {A} (l : list A) (i : Z) : option A :=
  if i <? 0 then None else l !! Z.to_nat i.

(** Modelled from the spec: [max] of the absent [utils] module; the spec has
    the native balance "reduced by the same fixed buffer, floored at zero",
    which is [max(balance - buffer, 0)] with [max] the larger of the two. *)
Definition max (a b : Z) : Z := Z.max a b.

Section Component.

(** [parseUnits] and [formatUnits] of the absent [utils] module; [None] is a
    thrown exception. *)
Variable parseUnits : string → nat → option Z.
Variable formatUnits : Z → nat → string.

(** The [message] of a [new ParsingError()]. *)
Variable ParsingError_message : string.

Definition message_of (e : FormError) : string :=
  match e with
  | ParsingError => ParsingError_message
  | Error message => message
  end.

(** The body of the [try] block of [handleChange] up to [setAmount]:
    reading [selectedItem!.decimals] of an absent item throws, so does
    [parseUnits] on a string it rejects, and a negative amount is thrown
    explicitly. *)
Definition parse_amount (st : State) (value : string) : option Z :=
  item ← selectedItem st;
  amount ← parseUnits value (decimals item);
  if amount <? 0 then None else Some amount.

Definition handleChange (value : string) (st : State) : State :=
  let st1 := setInputAmount value st in
  if String.eqb value "" then setError None (setAmount 0 st1)
  else
    match parse_amount st value with
    | Some amount =>
        let st2 := setAmount amount st1 in
        if instanceof_ParsingError (error st) then setError None st2 else st2
    | None => setError (Some ParsingError) st1
    end.

(** The updater passed to the first [setError] of the effect. *)
Definition keep_parsing_error (oldError : option FormError) : option FormError :=
  if instanceof_ParsingError oldError then oldError else None.

(** [isEth ? balance.sub(ethers.utils.parseEther(FEE_ESTIMATION)) : balance] *)
Definition spendable (isEth : bool) (balance : Z) : option Z :=
  if isEth then fee ← Ethers.parseEther FEE_ESTIMATION; Some (balance - fee)
  else Some balance.

(** The effect that "checks for insufficient balance errors"; [None] is an
    exception escaping the effect. *)
Definition checkBalanceEffect (st : State) : option State :=
  if negb (String.eqb (inputAmount st) "") then
    let st1 := setError (keep_parsing_error (error st)) st in
    match balances st with
    | Some balances =>
        if amount st >? 0 then
          let selectedIndex :=
            findIndex (λ t, String.eqb (address t) (token st)) (tokenList st) in
          let balance := at_index balances selectedIndex in
          let isEth :=
            match at_index (tokenList st) selectedIndex with
            | Some t => String.eqb (symbol t) "ETH"
            | None => false
            end in
          match balance with
          | Some balance =>
              limit ← spendable isEth balance;
              if amount st >? limit
              then Some (setError (Some (Error "Insufficient balance.")) st1)
              else Some st1
          | None => Some st1
          end
        else Some st1
    | None => Some st1
    end
  else Some st.

(** [handleMaxClick]; [None] is the [TypeError] of reading [.symbol] of an
    absent list entry. *)
Definition handleMaxClick (st : State) : option State :=
  match balances st, selectedItem st with
  | Some balances, Some selectedItem =>
      let selectedIndex :=
        findIndex (λ t, String.eqb (address t) (address selectedItem))
                  (tokenList st) in
      entry ← at_index (tokenList st) selectedIndex;
      let isEth := String.eqb (symbol entry) "ETH" in
      match at_index balances selectedIndex with
      | Some balance =>
          balance ←
            (if isEth
             then fee ← Ethers.parseEther FEE_ESTIMATION; Some (max (balance - fee) 0)
             else Some balance);
          Some (setInputAmount (formatUnits balance (decimals selectedItem))
                  (setAmount balance st))
      | None =>
          Some (setInputAmount (formatUnits 0 (decimals selectedItem))
                  (setAmount 0 st))
      end
  | _, _ => Some st
  end.

(** [fees?.isAmountTooLow] and [fees?.isLiquidityInsufficient] *)
Definition fee_too_low (st : State) : bool :=
  match fees st with
  | Some f => isAmountTooLow f
  | None => false
  end.

Definition liquidity_insufficient (st : State) : bool :=
  match fees st with
  | Some f => isLiquidityInsufficient f
  | None => false
  end.

(** [`${selectedItem?.symbol}`] *)
Definition symbol_text (st : State) : string :=
  match selectedItem st with
  | Some item => symbol item
  | None => "undefined"
  end.

Definition errorMsg (st : State) : option string :=
  match error st with
  | Some e => Some (message_of e)
  | None =>
      if fee_too_low st
      then Some "Bridge fee is high for this amount. Send a larger amount."
      else if liquidity_insufficient st
           then Some ("Insufficient liquidity for " +:+ symbol_text st +:+ ".")
           else None
  end.

Definition showError (st : State) : bool :=
  bool_decide (is_Some (error st))
  || (fee_too_low st && (amount st >? 0))
  || (liquidity_insufficient st && (amount st >? 0)).

(** [{showError && <ErrorBox>{errorMsg}</ErrorBox>}]: the text of the error
    box when there is one; an [undefined] message renders as no text. *)
Definition errorBox (st : State) : option string :=
  if showError st then Some (default "" (errorMsg st)) else None.

End Component.

(** [ethers.utils.parseEther(FEE_ESTIMATION)], in wei. *)
Definition FEE_ESTIMATION_wei : Z := 4000000000000000.

(** The index of the send store's [token] in the token list, as the effect
    computes it. *)
Definition selected_index (st : State) : Z :=
  findIndex (λ t, String.eqb (address t) (token st)) (tokenList st).

Definition selected_is_native (st : State) : bool :=
  match at_index (tokenList st) (selected_index st) with
  | Some t => String.eqb (symbol t) "ETH"
  | None => false
  end.

(** The available balance in the words of the spec: the balance at the
    selected token's position, less the fee-estimation buffer for the native
    asset; none while the balances are not loaded or have no such entry. *)
Definition available_balance (st : State) : option Z :=
  balances ← balances st;
  balance ← at_index balances (selected_index st);
  Some (if selected_is_native st then balance - FEE_ESTIMATION_wei else balance).

Definition insufficient_balance : FormError := Error "Insufficient balance.".

(** The amount [handleMaxClick] commits for a balance entry. *)
Definition max_amount (entry : Token) (balance : option Z) : Z :=
  match balance with
  | Some b =>
      if String.eqb (symbol entry) "ETH" then Z.max (b - FEE_ESTIMATION_wei) 0 else b
  | None => 0
  end.

(** The errors the form raises itself. *)
Definition own_error (e : option FormError) : Prop :=
  e = None ∨ e = Some ParsingError ∨ e = Some insufficient_balance.

(** [setToken({ token })] of the send store. *)
Definition setToken (t : string) (st : State) : State :=
  {| amount := amount st; token := t; fees := fees st; tokenList := tokenList st;
     balances := balances st; selectedItem := selectedItem st;
     error := error st; inputAmount := inputAmount st |}.

(** The selected item as [useSelect] keeps it. *)
Definition setSelectedItem (item : option Token) (st : State) : State :=
  {| amount := amount st; token := token st; fees := fees st;
     tokenList := tokenList st; balances := balances st;
     selectedItem := item; error := error st; inputAmount := inputAmount st |}.

(** The [onSelectedItemChange] callback given to [useSelect]. *)
Definition onSelectedItemChange (selectedItem : option Token) (st : State) : State :=
  match selectedItem with
  | Some item =>
      setToken (address item)
        (setAmount 0 (setError None (setInputAmount "" st)))
  | None => st
  end.

(** [tokenList.find((t) => t.address === token)], the [defaultSelectedItem]. *)
Definition defaultSelectedItem (st : State) : option Token :=
  List.find (λ t, String.eqb (address t) (token st)) (tokenList st).

(** [tokenList.find((t) => t.address === token) ?? tokenList[0]], the item
    the synchronising effect hands to [selectItem]. *)
Definition syncedItem (st : State) : option Token :=
  match defaultSelectedItem st with
  | Some t => Some t
  | None => head (tokenList st)
  end.

(** What can happen to the mounted form: the user types, clicks Max,
    [useSelect] stores another item and reports it to the callback, or the
    balance effect runs. *)
Inductive Action : Type :=
| Change (value : string)
| MaxClick
| SelectedItemChange (item : option Token)
| BalanceCheck.

Section Replay.
Variable parseUnits : string → nat → option Z.
Variable formatUnits : Z → nat → string.

Definition step (a : Action) (st : State) : option State :=
  match a with
  | Change value => Some (handleChange parseUnits value st)
  | MaxClick => handleMaxClick formatUnits st
  | SelectedItemChange item =>
      Some (onSelectedItemChange item (setSelectedItem item st))
  | BalanceCheck => checkBalanceEffect st
  end.

(** The actions in order; [None] when one of them throws. *)
Fixpoint replay (actions : list Action) (st : State) : option State :=
  match actions with
  | [] => Some st
  | a :: rest => st' ← step a st; replay rest st'
  end.

End Replay.

End CoinSelection.

(** ** Concrete inputs *)

Module Examples.
Import Api.

(** An L2 token address, and a string that is no address. *)
Definition L2_token : string := "0x4200000000000000000000000000000000000006".

Definition malformed_token : string := "0xL2".

Definition is_hex_lower (c : ascii) : bool :=
  Ethers.is_digit c || ((97 <=? nat_of_ascii c)%nat && (nat_of_ascii c <=? 102)%nat).

Definition is_hex_upper (c : ascii) : bool :=
  Ethers.is_digit c || ((65 <=? nat_of_ascii c)%nat && (nat_of_ascii c <=? 70)%nat).

(** The address check for the examples: forty hexadecimal digits, after
    [0x] or bare, with letters of one case.  ethers accepts each of these
    and rejects [malformed_token]; a mixed-case string carries a checksum and
    an ICAP string another encoding, neither computed here, and the examples
    use none as an L2 token. *)
Definition isAddress (value : string) : bool :=
  let digits :=
    match value with
    | String "0" (String "x" rest) => rest
    | _ => value
    end in
  (String.length digits =? 40)%nat
  && (forallb is_hex_lower (list_ascii_of_string digits)
      || forallb is_hex_upper (list_ascii_of_string digits)).

(** The reason ethers gives; its full message also quotes the argument. *)
Definition invalidAddress (value : string) : string := "invalid address".

Definition whitelisted (l1Token : string) (block tx log : Z) : Event :=
  {| args := {| args_chainId := 10; args_l1Token := l1Token; args_l2Token := L2_token |};
     blockNumber := block; transactionIndex := tx; logIndex := log |}.

Definition WETH_address : string := "0xC02aaA39b223FE8D0A0e5C4F27eAD9083C756Cc2".

Definition ETH_address : string := "0x0000000000000000000000000000000000000000".

Definition DAI_address : string := "0x6B175474E89094C44Da98b954EedeAC495271d0F".

Definition USDC_address : string := "0xA0b86991c6218b36c1d19D4a2e9Eb0cE3606eB48".

(** The three events of the spec's example, in the order the node lists
    them; the most recent one maps the L2 token to wrapped ether. *)
Definition three_events : list Event :=
  [whitelisted DAI_address 10 0 0; whitelisted WETH_address 10 0 1;
   whitelisted USDC_address 9 5 5].

Definition node (l2Token : string) : Outcome (list Event) :=
  if String.eqb l2Token L2_token then Fulfilled three_events else Fulfilled [].

Definition quote (amount l1Token : string) : Outcome DepositFeeDetails :=
  Fulfilled {| slow := {| pct := "1000" |}; instant := {| pct := "2000" |} |}.

(** Two events at the same position around an older one. *)
Definition tied_events : list Event :=
  [whitelisted DAI_address 10 0 1; whitelisted USDC_address 9 5 5;
   whitelisted WETH_address 10 0 1].

(** The node of [node], listing its events in the opposite order. *)
Definition node_reversed (l2Token : string) : Outcome (list Event) :=
  if String.eqb l2Token L2_token then Fulfilled (rev three_events) else Fulfilled [].

Definition node_down (l2Token : string) : Outcome (list Event) :=
  Rejected "could not detect network".

Definition quote_down (amount l1Token : string) : Outcome DepositFeeDetails :=
  Rejected "missing response".

Definition usdc : CoinSelection.Token :=
  {| CoinSelection.address := "0xA0b86991c6218b36c1d19D4a2e9Eb0cE3606eB48";
     CoinSelection.symbol := "USDC"; CoinSelection.name := "USD Coin";
     CoinSelection.logoURI := "usdc.svg"; CoinSelection.decimals := 6 |}.

Definition ether : CoinSelection.Token :=
  {| CoinSelection.address := ETH_address;
     CoinSelection.symbol := "ETH"; CoinSelection.name := "Ether";
     CoinSelection.logoURI := "eth.svg"; CoinSelection.decimals := 18 |}.

(** The form of the spec's example: balances of 100 and 50 tokens for a
    list of two, with the native asset, at index 1, selected; nothing has
    been entered yet.  Like the buffer of .004, the figures are in ether:
    the arrays hold them in wei. *)
Definition form : CoinSelection.State :=
  {| CoinSelection.amount := 0;
     CoinSelection.token := ETH_address;
     CoinSelection.fees := None;
     CoinSelection.tokenList := [usdc; ether];
     CoinSelection.balances := Some [100 * 10 ^ 18; 50 * 10 ^ 18];
     CoinSelection.selectedItem := Some ether;
     CoinSelection.error := None;
     CoinSelection.inputAmount := "" |}.

(** The same form showing [input] for a committed [amount], with a stored
    [error] and a fee quote. *)
Definition form_with (token : string) (amount : Z) (input : string)
    (error : option CoinSelection.FormError) (fees : option CoinSelection.Fees)
  : CoinSelection.State :=
  {| CoinSelection.amount := amount;
     CoinSelection.token := token;
     CoinSelection.fees := fees;
     CoinSelection.tokenList := [usdc; ether];
     CoinSelection.balances := Some [100 * 10 ^ 18; 50 * 10 ^ 18];
     CoinSelection.selectedItem := Some ether;
     CoinSelection.error := error;
     CoinSelection.inputAmount := input |}.

(** A session on the form: an amount above the balance, Max, another
    token, a negative amount. *)
Definition session : list CoinSelection.Action :=
  [CoinSelection.Change "51"; CoinSelection.BalanceCheck;
   CoinSelection.MaxClick; CoinSelection.BalanceCheck;
   CoinSelection.SelectedItemChange (Some usdc);
   CoinSelection.Change "-3"; CoinSelection.BalanceCheck].

(** The form at the end of [session]. *)
Definition session_end : CoinSelection.State :=
  {| CoinSelection.amount := 0;
     CoinSelection.token := CoinSelection.address usdc;
     CoinSelection.fees := None;
     CoinSelection.tokenList := [usdc; ether];
     CoinSelection.balances := Some [100 * 10 ^ 18; 50 * 10 ^ 18];
     CoinSelection.selectedItem := Some usdc;
     CoinSelection.error := Some CoinSelection.ParsingError;
     CoinSelection.inputAmount := "-3" |}.

Definition quote_flags (tooLow illiquid : bool) : option CoinSelection.Fees :=
  Some {| CoinSelection.isAmountTooLow := tooLow;
          CoinSelection.isLiquidityInsufficient := illiquid |}.

End Examples.

(** ** Properties of the fee-quote handler *)

Module ApiFacts.
Import Api.

Section SortFacts.
Context {A : Type} (compare : A → A → Z).

Local Abbreviation before := (Api.before compare).

Hypothesis compare_total : ∀ a b, before a b ∨ before b a.
Hypothesis compare_trans : ∀ a b c, before a b → before b c → before a c.

Lemma insert_Permutation a l : Permutation (insert compare a l) (a :: l).
Proof.
  induction l as [|b l IH]; simpl; [done|].
  destruct (compare a b <=? 0); [done|].
  rewrite IH. apply perm_swap.
Qed.

Lemma sort_Permutation l : Permutation (sort compare l) l.
Proof.
  induction l as [|a l IH]; simpl; [done|].
  fold (sort compare l). rewrite insert_Permutation. by constructor.
Qed.

Lemma insert_StronglySorted a l :
  StronglySorted before l → StronglySorted before (insert compare a l).
Proof using compare_total compare_trans.
  induction 1 as [|b l Hl IH Hb]; simpl.
  - repeat constructor.
  - destruct (Z.leb_spec (compare a b) 0) as [Hab|Hab].
    + apply SSorted_cons; [by apply SSorted_cons|].
      apply Forall_cons; split; [done|].
      eapply Forall_impl; [exact Hb|]. intros c Hbc. by eapply compare_trans.
    + constructor; [done|].
      rewrite insert_Permutation. constructor; [|done].
      destruct (compare_total a b) as [H|H]; [unfold before in H; lia|done].
Qed.

Lemma sort_StronglySorted l : StronglySorted before (sort compare l).
Proof using compare_total compare_trans.
  induction l as [|a l IH]; simpl; [constructor|].
  by apply insert_StronglySorted.
Qed.

(** The first element of the sorted array comes from the array and may
    stand before each of its elements. *)
Lemma sort_head l :
  l ≠ [] →
  ∃ a rest, sort compare l = a :: rest ∧ In a l ∧ ∀ b, In b l → before a b.
Proof using compare_total compare_trans.
  intros Hne.
  pose proof (sort_Permutation l) as Hperm.
  pose proof (sort_StronglySorted l) as Hsorted.
  destruct (sort compare l) as [|a rest] eqn:Hs.
  - apply Permutation_nil in Hperm. done.
  - exists a, rest. split; [done|]. split.
    + eapply Permutation_in; [exact Hperm|]. by left.
    + intros b Hb. apply Permutation_sym in Hperm.
      apply (Permutation_in _ Hperm) in Hb.
      apply StronglySorted_inv in Hsorted as [_ Hall].
      destruct Hb as [->|Hb].
      * destruct (compare_total b b); done.
      * rewrite List.Forall_forall in Hall. by apply Hall.
Qed.

End SortFacts.

Lemma compareEvents_lex a b :
  before compareEvents a b ↔ lex_le (position b) (position a).
Proof.
  unfold before, compareEvents, lex_le, position.
  destruct (Z.eqb_spec (blockNumber b) (blockNumber a));
    destruct (Z.eqb_spec (transactionIndex b) (transactionIndex a)); simpl; lia.
Qed.

Lemma lex_le_total p q : lex_le p q ∨ lex_le q p.
Proof. destruct p as [[??]?], q as [[??]?]. unfold lex_le. lia. Qed.

Lemma lex_le_trans p q r : lex_le p q → lex_le q r → lex_le p r.
Proof. destruct p as [[??]?], q as [[??]?], r as [[??]?]. unfold lex_le. lia. Qed.

Lemma lex_le_antisym p q : lex_le p q → lex_le q p → p = q.
Proof.
  destruct p as [[??]?], q as [[??]?]. unfold lex_le. intros.
  repeat f_equal; lia.
Qed.

Lemma compareEvents_total a b :
  before compareEvents a b ∨ before compareEvents b a.
Proof. rewrite !compareEvents_lex. apply lex_le_total. Qed.

Lemma compareEvents_trans a b c :
  before compareEvents a b → before compareEvents b c → before compareEvents a c.
Proof. rewrite !compareEvents_lex. eauto using lex_le_trans. Qed.

(** The sorted events start with a most recent one. *)
Lemma sorted_events_head (events : list Event) :
  events ≠ [] →
  ∃ event rest,
    sort compareEvents events = event :: rest ∧ In event events ∧
    ∀ e, In e events → lex_le (position e) (position event).
Proof.
  intros Hne.
  destruct (sort_head compareEvents compareEvents_total compareEvents_trans
              events Hne) as (event & rest & Hs & Hin & Hmax).
  exists event, rest. repeat split; [done..|].
  intros e He. apply compareEvents_lex. by apply Hmax.
Qed.

Lemma length_eqb_0 {A} (l : list A) : (length l =? 0)%nat = false ↔ l ≠ [].
Proof. destruct l; simpl; split; congruence. Qed.

Section HandlerFacts.
Variable REACT_APP_PUBLIC_INFURA_ID : string.
Variables WETH ETH : string.
Variable isAddress : string → bool.
Variable invalidAddress : string → string.
Variable queryFilter : string → Outcome (list Event).
Variable getDepositFeesDetails : string → string → Outcome DepositFeeDetails.

Local Abbreviation handler :=
  (Api.handler REACT_APP_PUBLIC_INFURA_ID WETH ETH isAddress invalidAddress
     queryFilter getDepositFeesDetails).
Local Abbreviation getTokenDetails :=
  (Api.getTokenDetails isAddress invalidAddress queryFilter).
Local Abbreviation provider_url := ("https://mainnet.infura.io/v3/" +:+ REACT_APP_PUBLIC_INFURA_ID).

(** [getTokenDetails] on a string that is no address: the filter cannot be
    built, and nothing is asked of the node. *)
Lemma getTokenDetails_invalid provider l2Token chainId tr :
  isAddress l2Token = false →
  getTokenDetails provider l2Token chainId tr
  = (Rejected (invalidAddress l2Token), tr).
Proof.
  intros Hbad. unfold Api.getTokenDetails, await, WhitelistToken, throw.
  by rewrite Hbad.
Qed.

(** [getTokenDetails] on an address, and a node that answers the query with
    [log]. *)
Lemma getTokenDetails_run provider l2Token chainId log tr :
  isAddress l2Token = true →
  queryFilter l2Token = Fulfilled log →
  getTokenDetails provider l2Token chainId tr =
    (match sort compareEvents (matching_events chainId log) with
     | event :: _ => Fulfilled (args event)
     | [] => Rejected "No whitelisted token found"
     end, (tr ++ [QueryFilter l2Token])%list).
Proof.
  intros Hok Hq.
  unfold Api.getTokenDetails, await, WhitelistToken, resolve, perform.
  rewrite Hok, Hq.
  destruct (matching_events chainId log) as [|e events] eqn:Hm; [done|].
  destruct (sorted_events_head (e :: events)) as (event & rest & Hs & _); [done|].
  rewrite Hs. done.
Qed.

Lemma isString_false (v : QueryValue) :
  isString v = false ↔ v = QUndefined ∨ ∃ ss, v = QArray ss.
Proof.
  destruct v as [|s|ss]; simpl; split; try done.
  - by left.
  - intros [?|[? ?]]; done.
  - right. by exists ss.
Qed.

(** C2. If one of [amount], [l2Token], [chainId] is missing or is not a
    string, the handler rejects, and the only thing it has done by then is
    build the provider object: no event query and no fee computation is in
    its trace. *)
Theorem handler_rejects_bad_query (request : Request) :
  isString (amount (query request)) = false
  ∨ isString (l2Token (query request)) = false
  ∨ isString (chainId (query request)) = false →
  run (handler request)
    = (Rejected "Must provide amount and token as query params",
       [NewJsonRpcProvider provider_url])
  ∧ Forall (λ c, is_network_call c = false) (snd (run (handler request))).
Proof.
  intros Hbad.
  assert (run (handler request)
          = (Rejected "Must provide amount and token as query params",
             [NewJsonRpcProvider provider_url])) as Hrun.
  { unfold run, Api.handler, await, newJsonRpcProvider, perform, throw. simpl.
    destruct Hbad as [-> | [-> | ->]]; simpl;
      rewrite ?orb_true_r; done. }
  rewrite Hrun. split; [done|]. by repeat constructor.
Qed.

(** An event passes the handler's filter when its chain id, in decimal, is
    the requested string. *)
Lemma matching_events_In chainId log e :
  In e (matching_events chainId log)
  ↔ In e log ∧ pretty (args_chainId (args e)) = chainId.
Proof.
  unfold matching_events, chainId_matches. rewrite filter_In.
  by rewrite String.eqb_eq.
Qed.

(** The handler past its guard, on an address and a node that answers with
    [log]. *)
Lemma handler_run amount l2Token chainId log :
  isAddress l2Token = true →
  queryFilter l2Token = Fulfilled log →
  run (handler (request_of (QString amount) (QString l2Token) (QString chainId)))
  = match sort compareEvents (matching_events chainId log) with
    | [] =>
        (Rejected "No whitelisted token found",
         [NewJsonRpcProvider provider_url; QueryFilter l2Token])
    | event :: _ =>
        let l1Token := args_l1Token (args event) in
        let forwarded := if String.eqb l1Token WETH then ETH else l1Token in
        (match getDepositFeesDetails amount forwarded with
         | Fulfilled details =>
             Fulfilled {| status := 200;
                          json := {| slowFeePct := pct (slow details);
                                     fastFeePct := pct (instant details) |} |}
         | Rejected msg => Rejected msg
         end,
         [NewJsonRpcProvider provider_url; QueryFilter l2Token;
          GetDepositFeesDetails amount forwarded])
    end.
Proof.
  intros Hok Hq. unfold run, Api.handler. unfold await at 1. simpl.
  unfold await at 1. rewrite (getTokenDetails_run _ _ _ log); [|done..].
  destruct (sort compareEvents (matching_events chainId log)) as [|event rest];
    [done|].
  simpl. unfold await, perform, resolve.
  destruct (String.eqb (args_l1Token (args event)) WETH) eqn:Heq;
    rewrite ?String.eqb_refl, ?Heq;
    by destruct (getDepositFeesDetails amount _).
Qed.

(** C1. For an L2 token address and every answer of the node in which some
    event is of the requested chain (its chain id, in decimal, is the
    [chainId] string), [getTokenDetails] resolves with the arguments of an
    event of that answer and of that chain whose position (blockNumber,
    transactionIndex, logIndex) is maximal, in the lexicographic order, among
    the events of that chain, every other maximal one being at the same
    position, and the handler asks the fee for the L1 token of that event;
    among the events at (10,0,0), (10,0,1) and (9,5,5) the one at (10,0,1)
    is selected. *)
Theorem getTokenDetails_selects_most_recent :
  (∀ provider amount l2Token chainId log,
     isAddress l2Token = true →
     queryFilter l2Token = Fulfilled log →
     (∃ e, In e log ∧ pretty (args_chainId (args e)) = chainId) →
     ∃ event,
       run (getTokenDetails provider l2Token chainId)
         = (Fulfilled (args event), [QueryFilter l2Token])
       ∧ (In event log ∧ pretty (args_chainId (args event)) = chainId)
       ∧ (∀ e, In e log → pretty (args_chainId (args e)) = chainId →
               lex_le (position e) (position event))
       ∧ (∀ e, In e log → pretty (args_chainId (args e)) = chainId →
               lex_le (position event) (position e) → position e = position event)
       ∧ snd (run (handler (request_of (QString amount) (QString l2Token)
                              (QString chainId))))
         = [NewJsonRpcProvider provider_url; QueryFilter l2Token;
            GetDepositFeesDetails amount
              (if String.eqb (args_l1Token (args event)) WETH then ETH
               else args_l1Token (args event))])
  ∧ (∀ a b c,
       head (sort compareEvents
               [Examples.whitelisted a 10 0 0; Examples.whitelisted b 10 0 1;
                Examples.whitelisted c 9 5 5])
       = Some (Examples.whitelisted b 10 0 1)).
Proof.
  split; [|done].
  intros provider amount l2Token chainId log Hok Hq (e0 & Hin0 & Hchain0).
  assert (matching_events chainId log ≠ []) as Hne.
  { intros Hnil. assert (In e0 (matching_events chainId log)) as H
      by by apply matching_events_In.
    by rewrite Hnil in H. }
  destruct (sorted_events_head _ Hne) as (event & rest & Hs & Hin & Hmax).
  exists event. split; [|split; [|split; [|split]]].
  - unfold run. rewrite (getTokenDetails_run _ _ _ log); [|done..].
    by rewrite Hs.
  - by apply matching_events_In.
  - intros e He Hchain. apply Hmax. by apply matching_events_In.
  - intros e He Hchain Hle. apply lex_le_antisym; [|done].
    apply Hmax. by apply matching_events_In.
  - rewrite (handler_run _ _ _ log); [|done..]. by rewrite Hs.
Qed.

(** The handler past its guard, once [getTokenDetails] has resolved. *)
Lemma handler_run_resolved amount l2Token chainId details :
  fst (run (getTokenDetails {| connection_url := provider_url |} l2Token chainId))
    = Fulfilled details →
  let forwarded :=
    if String.eqb (args_l1Token details) WETH then ETH else args_l1Token details in
  snd (run (handler (request_of (QString amount) (QString l2Token) (QString chainId))))
  = [NewJsonRpcProvider provider_url; QueryFilter l2Token;
     GetDepositFeesDetails amount forwarded].
Proof.
  intros Hres forwarded.
  destruct (isAddress l2Token) eqn:Hok; cycle 1.
  { unfold run in Hres. by rewrite getTokenDetails_invalid in Hres. }
  destruct (queryFilter l2Token) as [log|msg] eqn:Hq.
  - unfold run in Hres. rewrite (getTokenDetails_run _ _ _ log) in Hres; [|done..].
    rewrite (handler_run _ _ _ log); [|done..].
    destruct (sort compareEvents (matching_events chainId log)) as [|event rest];
      [done|].
    simpl in Hres. injection Hres as <-. subst forwarded.
    by destruct (getDepositFeesDetails amount
                   (if String.eqb (args_l1Token (args event)) WETH
                    then ETH else args_l1Token (args event))).
  - unfold run, Api.getTokenDetails, await, WhitelistToken, resolve, perform in Hres.
    rewrite Hok, Hq in Hres. done.
Qed.

Lemma request_eta (request : Request) a t c :
  amount (query request) = a → l2Token (query request) = t →
  chainId (query request) = c → request = request_of a t c.
Proof. destruct request as [[? ? ?]]. simpl. by intros -> -> ->. Qed.

(** C3. For a request with three string parameters, the L2 token an
    address, if no event of the node's answer for that token is of the
    requested chain (none has the [chainId] string for its chain id in
    decimal), the handler rejects with "No whitelisted token found": it sends
    no response and asks for no fee computation. *)
Theorem handler_rejects_unlisted_token (request : Request) amount l2Token chainId log :
  Api.amount (query request) = QString amount →
  Api.l2Token (query request) = QString l2Token →
  Api.chainId (query request) = QString chainId →
  isAddress l2Token = true →
  queryFilter l2Token = Fulfilled log →
  (∀ e, In e log → pretty (args_chainId (args e)) ≠ chainId) →
  run (handler request)
  = (Rejected "No whitelisted token found",
     [NewJsonRpcProvider provider_url; QueryFilter l2Token]).
Proof.
  intros Ha Ht Hc Hok Hq Hnone.
  rewrite (request_eta request _ _ _ Ha Ht Hc).
  rewrite (handler_run _ _ _ log); [|done..].
  assert (matching_events chainId log = []) as ->; [|done].
  destruct (matching_events chainId log) as [|e l] eqn:Hm; [done|].
  assert (In e (matching_events chainId log)) as He by (rewrite Hm; by left).
  apply matching_events_In in He as [He Hchain]. by destruct (Hnone e He).
Qed.

(** C8. Once [getTokenDetails] has resolved an L1 token, the third and last
    call of the handler is the fee computation, and the token it passes is
    the native-ETH sentinel [ADDRESSES.ETH] when the resolved token equals
    [ADDRESSES.WETH], and the resolved token itself otherwise. *)
Theorem handler_forwards_native_sentinel (request : Request) amount l2Token chainId details :
  Api.amount (query request) = QString amount →
  Api.l2Token (query request) = QString l2Token →
  Api.chainId (query request) = QString chainId →
  fst (run (getTokenDetails {| connection_url := provider_url |} l2Token chainId))
    = Fulfilled details →
  ∃ forwarded,
    snd (run (handler request))
    = [NewJsonRpcProvider provider_url; QueryFilter l2Token;
       GetDepositFeesDetails amount forwarded]
    ∧ (args_l1Token details = WETH → forwarded = ETH)
    ∧ (args_l1Token details ≠ WETH → forwarded = args_l1Token details).
Proof.
  intros Ha Ht Hc Hres.
  rewrite (request_eta request _ _ _ Ha Ht Hc).
  eexists. split; [by apply handler_run_resolved|].
  split; intros H.
  - rewrite H. by rewrite String.eqb_refl.
  - apply String.eqb_neq in H. by rewrite H.
Qed.

End HandlerFacts.

(** The spec's three events, asked for on chain 10. *)
Lemma getTokenDetails_selects_most_recent_witness :
  Examples.isAddress Examples.L2_token = true
  ∧ Examples.node Examples.L2_token = Fulfilled Examples.three_events
  ∧ (∃ e, In e Examples.three_events ∧ pretty (args_chainId (args e)) = "10")
  ∧ ∃ event,
      run (Api.getTokenDetails Examples.isAddress Examples.invalidAddress
             Examples.node {| connection_url := "rpc" |} Examples.L2_token "10")
        = (Fulfilled (args event), [QueryFilter Examples.L2_token])
      ∧ (In event Examples.three_events
         ∧ pretty (args_chainId (args event)) = "10")
      ∧ (∀ e, In e Examples.three_events →
              pretty (args_chainId (args e)) = "10" →
              lex_le (position e) (position event))
      ∧ (∀ e, In e Examples.three_events →
              pretty (args_chainId (args e)) = "10" →
              lex_le (position event) (position e) → position e = position event)
      ∧ snd (run (Api.handler "id" Examples.WETH_address Examples.ETH_address
                    Examples.isAddress Examples.invalidAddress
                    Examples.node Examples.quote
                    (request_of (QString "1000") (QString Examples.L2_token)
                       (QString "10"))))
        = [NewJsonRpcProvider "https://mainnet.infura.io/v3/id";
           QueryFilter Examples.L2_token;
           GetDepositFeesDetails "1000"
             (if String.eqb (args_l1Token (args event)) Examples.WETH_address
              then Examples.ETH_address else args_l1Token (args event))].
Proof.
  assert (∃ e, In e Examples.three_events
               ∧ pretty (args_chainId (args e)) = "10") as Hsome.
  { exists (Examples.whitelisted Examples.DAI_address 10 0 0). split; [by left|reflexivity]. }
  split; [reflexivity|]. split; [reflexivity|]. split; [exact Hsome|].
  exact (proj1 (getTokenDetails_selects_most_recent "id" Examples.WETH_address
                  Examples.ETH_address Examples.isAddress Examples.invalidAddress
                  Examples.node Examples.quote)
           {| connection_url := "rpc" |} "1000" Examples.L2_token "10"
           Examples.three_events eq_refl eq_refl Hsome).
Defined.

(** A request without [amount]. *)
Lemma handler_rejects_bad_query_witness :
  let request :=
    request_of QUndefined (QString Examples.L2_token) (QString "10") in
  (isString (amount (query request)) = false
   ∨ isString (l2Token (query request)) = false
   ∨ isString (chainId (query request)) = false)
  ∧ run (Api.handler "id" Examples.WETH_address Examples.ETH_address
           Examples.isAddress Examples.invalidAddress
           Examples.node Examples.quote request)
    = (Rejected "Must provide amount and token as query params",
       [NewJsonRpcProvider "https://mainnet.infura.io/v3/id"])
  ∧ Forall (λ c, is_network_call c = false)
      (snd (run (Api.handler "id" Examples.WETH_address Examples.ETH_address
                   Examples.isAddress Examples.invalidAddress
                   Examples.node Examples.quote request))).
Proof.
  split; [left; reflexivity|].
  apply (handler_rejects_bad_query "id" Examples.WETH_address Examples.ETH_address
           Examples.isAddress Examples.invalidAddress
           Examples.node Examples.quote).
  left. reflexivity.
Defined.

(** The three events live on chain 10; a request for chain 42161 finds none. *)
Lemma handler_rejects_unlisted_token_witness :
  let request :=
    request_of (QString "1000") (QString Examples.L2_token) (QString "42161") in
  Examples.isAddress Examples.L2_token = true
  ∧ Examples.node Examples.L2_token = Fulfilled Examples.three_events
  ∧ (∀ e, In e Examples.three_events → pretty (args_chainId (args e)) ≠ "42161")
  ∧ run (Api.handler "id" Examples.WETH_address Examples.ETH_address
           Examples.isAddress Examples.invalidAddress
           Examples.node Examples.quote request)
    = (Rejected "No whitelisted token found",
       [NewJsonRpcProvider "https://mainnet.infura.io/v3/id";
        QueryFilter Examples.L2_token]).
Proof.
  assert (∀ e, In e Examples.three_events
               → pretty (args_chainId (args e)) ≠ "42161") as Hnone.
  { intros e [<-|[<-|[<-|[]]]]; discriminate. }
  split; [reflexivity|]. split; [reflexivity|]. split; [exact Hnone|].
  exact (handler_rejects_unlisted_token "id" Examples.WETH_address
           Examples.ETH_address Examples.isAddress Examples.invalidAddress
           Examples.node Examples.quote
           (request_of (QString "1000") (QString Examples.L2_token) (QString "42161"))
           "1000" Examples.L2_token "42161" Examples.three_events
           eq_refl eq_refl eq_refl eq_refl eq_refl Hnone).
Defined.

(** The most recent of the three events maps the token to wrapped ether, so
    the quote is asked for the sentinel. *)
Lemma handler_forwards_native_sentinel_witness :
  let request :=
    request_of (QString "1000") (QString Examples.L2_token) (QString "10") in
  let details := args (Examples.whitelisted Examples.WETH_address 10 0 1) in
  fst (run (Api.getTokenDetails Examples.isAddress Examples.invalidAddress
              Examples.node {| connection_url := "https://mainnet.infura.io/v3/id" |}
              Examples.L2_token "10"))
    = Fulfilled details
  ∧ ∃ forwarded,
      snd (run (Api.handler "id" Examples.WETH_address Examples.ETH_address
                  Examples.isAddress Examples.invalidAddress
                  Examples.node Examples.quote request))
      = [NewJsonRpcProvider "https://mainnet.infura.io/v3/id";
         QueryFilter Examples.L2_token;
         GetDepositFeesDetails "1000" forwarded]
      ∧ (args_l1Token details = Examples.WETH_address → forwarded = Examples.ETH_address)
      ∧ (args_l1Token details ≠ Examples.WETH_address → forwarded = args_l1Token details).
Proof.
  split; [reflexivity|].
  by apply (handler_forwards_native_sentinel "id" Examples.WETH_address
              Examples.ETH_address Examples.isAddress Examples.invalidAddress
              Examples.node Examples.quote _
              "1000" Examples.L2_token "10").
Defined.

End ApiFacts.

(** ** Properties of the selection form *)

Module CoinSelectionFacts.
Import CoinSelection.

Lemma parseEther_FEE_ESTIMATION :
  Ethers.parseEther FEE_ESTIMATION = Some FEE_ESTIMATION_wei.
Proof. reflexivity. Qed.

Lemma spendable_eq isEth balance :
  spendable isEth balance
  = Some (if isEth then balance - FEE_ESTIMATION_wei else balance).
Proof.
  unfold spendable. rewrite parseEther_FEE_ESTIMATION. by destruct isEth.
Qed.

Lemma eqb_empty_false (s : string) : s ≠ "" → String.eqb s "" = false.
Proof. intros H. by apply String.eqb_neq. Qed.

Lemma findIndex_from_ge {A} (p : A → bool) l i :
  findIndex_from p l i = -1 ∨ i ≤ findIndex_from p l i < i + Z.of_nat (length l).
Proof.
  revert i. induction l as [|x l IH]; intros i; simpl; [by left|].
  destruct (p x); [right; lia|].
  destruct (IH (i + 1)); [by left|right; lia].
Qed.

Lemma findIndex_from_not_found {A} (p : A → bool) l i :
  0 ≤ i → findIndex_from p l i = -1 ↔ Forall (λ x, p x = false) l.
Proof.
  revert i. induction l as [|x l IH]; intros i Hi; simpl.
  - split; [constructor|done].
  - destruct (p x) eqn:Hp.
    + split; [lia|]. intros H. apply Forall_cons in H as [H _]. congruence.
    + rewrite IH by lia. split; [by constructor|].
      intros H. by apply Forall_cons in H as [_ H].
Qed.

(** [findIndex] answers [-1] exactly when no element satisfies the predicate. *)
Lemma findIndex_not_found {A} (p : A → bool) l :
  findIndex p l = -1 ↔ Forall (λ x, p x = false) l.
Proof. by apply findIndex_from_not_found. Qed.

(** No entry at [-1], nor at or past the length of the array. *)
Lemma at_index_not_found {A} (l : list A) : at_index l (-1) = None.
Proof. reflexivity. Qed.

Lemma at_index_short {A} (l : list A) i :
  Z.of_nat (length l) ≤ i → at_index l i = None.
Proof.
  intros Hi. unfold at_index. destruct (Z.ltb_spec i 0); [done|].
  apply lookup_ge_None. lia.
Qed.

Lemma at_index_absent {A} (l : list A) i :
  at_index l i = None ↔ i < 0 ∨ Z.of_nat (length l) ≤ i.
Proof.
  unfold at_index. destruct (Z.ltb_spec i 0) as [Hi|Hi].
  - split; [by left|done].
  - rewrite lookup_ge_None. lia.
Qed.

Lemma keep_parsing_error_not_insufficient e :
  keep_parsing_error e ≠ Some insufficient_balance.
Proof. by destruct e as [[|m]|]. Qed.

(** The effect in one equation, for a non-empty input and a positive amount:
    the non-parsing error is cleared, and the insufficient-balance error is
    set when the amount exceeds the available balance. *)
Lemma checkBalanceEffect_positive st :
  inputAmount st ≠ "" → amount st > 0 →
  checkBalanceEffect st
  = Some (let st1 := setError (keep_parsing_error (error st)) st in
          match available_balance st with
          | Some available =>
              if amount st >? available
              then setError (Some insufficient_balance) st1 else st1
          | None => st1
          end).
Proof.
  intros Hinput Hpos. unfold checkBalanceEffect, available_balance.
  rewrite (eqb_empty_false _ Hinput). simpl.
  destruct (balances st) as [bs|]; simpl; [|done].
  destruct (Z.gtb_spec (amount st) 0) as [_|]; [|lia].
  fold (selected_index st). fold (selected_is_native st).
  destruct (at_index bs (selected_index st)) as [b|]; simpl; [|done].
  rewrite spendable_eq. simpl.
  by destruct (amount st >? _).
Qed.

(** Outside that case the effect at most clears the non-parsing error. *)
Lemma checkBalanceEffect_idle st :
  inputAmount st = "" ∨ amount st ≤ 0 →
  checkBalanceEffect st
  = Some (if String.eqb (inputAmount st) "" then st
          else setError (keep_parsing_error (error st)) st).
Proof.
  intros H. unfold checkBalanceEffect.
  destruct (String.eqb_spec (inputAmount st) "") as [Heq|Hne]; simpl; [done|].
  destruct H as [H|H]; [done|].
  destruct (balances st); [|done].
  destruct (Z.gtb_spec (amount st) 0); [lia|done].
Qed.

(** C5. With a non-empty input and a positive committed amount, the
    balance check leaves everything but the error as it was; it ends with
    the "Insufficient balance." error exactly when the amount exceeds the
    available balance, which for the native asset is the balance less the
    buffer of .004 ether; otherwise it ends with the previous error when
    that was a parsing error and with no error when it was not.  On the
    example form (balances of 100 and 50, index 1 selected, native asset)
    entering 51 ends with the error and entering 49 with none. *)
Theorem checkBalanceEffect_flags_insufficient_balance :
  (∀ st,
     inputAmount st ≠ "" → amount st > 0 →
     ∃ st',
       checkBalanceEffect st = Some st'
       ∧ st' = setError (error st') st
       ∧ (error st' = Some insufficient_balance
          ↔ ∃ available, available_balance st = Some available
                         ∧ amount st > available)
       ∧ (error st' ≠ Some insufficient_balance
          → error st' = keep_parsing_error (error st)))
  ∧ (error <$> checkBalanceEffect (handleChange Ethers.parseUnits "51" Examples.form)
       = Some (Some insufficient_balance)
     ∧ error <$> checkBalanceEffect (handleChange Ethers.parseUnits "49" Examples.form)
       = Some None).
Proof.
  split; [|split; reflexivity].
  intros st Hinput Hpos. eexists. split; [by apply checkBalanceEffect_positive|].
  simpl. destruct (available_balance st) as [available|]; simpl.
  - destruct (Z.gtb_spec (amount st) available) as [Hgt|Hle]; simpl.
    + split; [done|]. split; [|done]. split; [|done].
      intros _. exists available. split; [done|lia].
    + split; [done|]. split; [|done]. split.
      * intros H. by apply keep_parsing_error_not_insufficient in H.
      * intros (a & [= <-] & Ha). lia.
  - split; [done|]. split; [|done]. split.
    + intros H. by apply keep_parsing_error_not_insufficient in H.
    + intros (a & [=] & _).
Qed.

(** For the native asset a balance within the buffer leaves nothing
    available: every positive amount is then flagged. *)
Lemma checkBalanceEffect_balance_within_buffer st bs b st' :
  inputAmount st ≠ "" → amount st > 0 →
  balances st = Some bs → at_index bs (selected_index st) = Some b →
  selected_is_native st = true → b ≤ FEE_ESTIMATION_wei →
  checkBalanceEffect st = Some st' → error st' = Some insufficient_balance.
Proof.
  intros Hinput Hpos Hbs Hb Hnative Hsmall.
  rewrite checkBalanceEffect_positive by done.
  unfold available_balance. rewrite Hbs. simpl. rewrite Hb. simpl.
  rewrite Hnative. intros [= <-].
  by destruct (Z.gtb_spec (amount st) (b - FEE_ESTIMATION_wei)); [|lia].
Qed.

(** C9. When the balances have no entry at the selected token's index (the
    index is [-1], or it is past the end of the balances array), the balance
    check does nothing but clear a non-parsing error, whatever the committed
    amount: it never ends with an insufficient-balance error that was not
    already there with an empty input. *)
Theorem checkBalanceEffect_absent_balance st :
  (∀ bs, balances st = Some bs → at_index bs (selected_index st) = None) →
  ∃ st',
    checkBalanceEffect st = Some st'
    ∧ st' = (if String.eqb (inputAmount st) "" then st
             else setError (keep_parsing_error (error st)) st)
    ∧ (inputAmount st ≠ "" → error st' ≠ Some insufficient_balance)
    ∧ (error st ≠ Some insufficient_balance → error st' ≠ Some insufficient_balance).
Proof.
  intros Habsent.
  assert (checkBalanceEffect st
          = Some (if String.eqb (inputAmount st) "" then st
                  else setError (keep_parsing_error (error st)) st)) as Hrun.
  { destruct (String.eqb_spec (inputAmount st) "") as [Heq|Hne].
    - rewrite checkBalanceEffect_idle by (by left). by rewrite Heq.
    - destruct (Z_le_gt_dec (amount st) 0) as [Hle|Hgt].
      + rewrite checkBalanceEffect_idle by (by right).
        by rewrite (eqb_empty_false _ Hne).
      + rewrite checkBalanceEffect_positive by done.
        unfold available_balance. destruct (balances st) as [bs|] eqn:Hbs; [|done].
        simpl. by rewrite (Habsent bs). }
  eexists. split; [exact Hrun|]. split; [done|].
  destruct (String.eqb_spec (inputAmount st) "") as [Heq|Hne]; simpl.
  - split; [done|]. done.
  - split; intros _; apply keep_parsing_error_not_insufficient.
Qed.

Section ComponentFacts.
Variable parseUnits : string → nat → option Z.
Variable formatUnits : Z → nat → string.
Variable ParsingError_message : string.

Local Abbreviation handleChange := (CoinSelection.handleChange parseUnits).
Local Abbreviation handleMaxClick := (CoinSelection.handleMaxClick formatUnits).
Local Abbreviation errorMsg := (CoinSelection.errorMsg ParsingError_message).
Local Abbreviation errorBox := (CoinSelection.errorBox ParsingError_message).
Local Abbreviation message_of := (CoinSelection.message_of ParsingError_message).

(** A failed [try] block: the input is shown, the parsing error is set and
    the committed amount stays. *)
Lemma handleChange_failure value st :
  value ≠ "" → parse_amount parseUnits st value = None →
  handleChange value st = setError (Some ParsingError) (setInputAmount value st).
Proof.
  intros Hne Hparse. unfold CoinSelection.handleChange.
  by rewrite (eqb_empty_false _ Hne), Hparse.
Qed.

(** C4. In the amount field: the empty string commits zero and clears the
    error; a non-empty string that [parseUnits] turns, at the selected
    token's decimals, into a non-negative amount commits that amount; a
    negative result sets the parsing error; so does every failure to parse;
    and in both of these cases the committed amount is the one from before. *)
Theorem handleChange_parses_amount :
  (∀ st,
     amount (handleChange "" st) = 0
     ∧ error (handleChange "" st) = None
     ∧ inputAmount (handleChange "" st) = "")
  ∧ (∀ value st item parsed,
       value ≠ "" → selectedItem st = Some item →
       parseUnits value (decimals item) = Some parsed → 0 ≤ parsed →
       amount (handleChange value st) = parsed
       ∧ inputAmount (handleChange value st) = value
       ∧ error (handleChange value st)
         = (if instanceof_ParsingError (error st) then None else error st))
  ∧ (∀ value st item parsed,
       value ≠ "" → selectedItem st = Some item →
       parseUnits value (decimals item) = Some parsed → parsed < 0 →
       error (handleChange value st) = Some ParsingError
       ∧ amount (handleChange value st) = amount st)
  ∧ (∀ value st,
       value ≠ "" →
       (selectedItem st = None
        ∨ ∃ item, selectedItem st = Some item
                  ∧ parseUnits value (decimals item) = None) →
       error (handleChange value st) = Some ParsingError
       ∧ amount (handleChange value st) = amount st).
Proof.
  split; [|split; [|split]].
  - intros st. unfold CoinSelection.handleChange. by simpl.
  - intros value st item parsed Hne Hitem Hparse Hsign.
    unfold CoinSelection.handleChange, parse_amount.
    rewrite (eqb_empty_false _ Hne), Hitem. simpl. rewrite Hparse. simpl.
    destruct (Z.ltb_spec parsed 0); [lia|].
    by destruct (instanceof_ParsingError (error st)).
  - intros value st item parsed Hne Hitem Hparse Hsign.
    rewrite handleChange_failure; [done..|].
    unfold parse_amount. rewrite Hitem. simpl. rewrite Hparse. simpl.
    by destruct (Z.ltb_spec parsed 0); [|lia].
  - intros value st Hne Hfail.
    rewrite handleChange_failure; [done..|].
    unfold parse_amount.
    destruct Hfail as [->|(item & -> & Hparse)]; simpl; [done|].
    by rewrite Hparse.
Qed.

(** C6. With the balances loaded and the selected token listed with a
    balance entry, the Max action commits the full available balance and
    displays it formatted at the selected token's decimals; for the native
    asset that is the balance less the buffer of .004 ether, and zero when
    the buffer exceeds the balance. *)
Theorem handleMaxClick_sets_full_balance st bs item entry b :
  balances st = Some bs → selectedItem st = Some item →
  let selectedIndex :=
    findIndex (λ t, String.eqb (address t) (address item)) (tokenList st) in
  at_index (tokenList st) selectedIndex = Some entry →
  at_index bs selectedIndex = Some b →
  let full :=
    if String.eqb (symbol entry) "ETH" then Z.max (b - FEE_ESTIMATION_wei) 0 else b in
  ∃ st',
    handleMaxClick st = Some st'
    ∧ amount st' = full
    ∧ inputAmount st' = formatUnits full (decimals item)
    ∧ st' = setInputAmount (inputAmount st') (setAmount (amount st') st)
    ∧ (symbol entry = "ETH" → 0 ≤ amount st').
Proof.
  intros Hbs Hitem selectedIndex Hentry Hb full.
  unfold CoinSelection.handleMaxClick.
  rewrite Hbs, Hitem, parseEther_FEE_ESTIMATION.
  fold selectedIndex. rewrite Hentry. simpl. rewrite Hb. subst full.
  destruct (String.eqb_spec (symbol entry) "ETH") as [Heth|Hne]; simpl.
  - eexists. split; [done|]. simpl. unfold max. repeat split. lia.
  - eexists. split; [done|]. simpl. repeat split. done.
Qed.

(** Without a balance entry the Max action commits zero. *)
Lemma handleMaxClick_without_entry st bs item entry :
  balances st = Some bs → selectedItem st = Some item →
  let selectedIndex :=
    findIndex (λ t, String.eqb (address t) (address item)) (tokenList st) in
  at_index (tokenList st) selectedIndex = Some entry →
  at_index bs selectedIndex = None →
  handleMaxClick st
  = Some (setInputAmount (formatUnits 0 (decimals item)) (setAmount 0 st)).
Proof.
  intros Hbs Hitem selectedIndex Hentry Hb.
  unfold CoinSelection.handleMaxClick.
  rewrite Hbs, Hitem, parseEther_FEE_ESTIMATION.
  fold selectedIndex. rewrite Hentry. simpl. by rewrite Hb.
Qed.

Lemma showError_errorMsg st : showError st = true → is_Some (errorMsg st).
Proof.
  unfold showError, CoinSelection.errorMsg.
  destruct (error st) as [e|]; [by eexists|]. simpl.
  destruct (fee_too_low st); [by eexists|]. simpl.
  destruct (liquidity_insufficient st); [by eexists|done].
Qed.

(** C7. The message is the stored error's (parsing or insufficient balance)
    when there is one; failing that, the fee warning when the fee is too
    high for the amount; failing that, the liquidity warning when liquidity
    is insufficient; and when none of the three applies there is no message
    and no error box.  Whenever the box is shown, its text is that message. *)
Theorem errorMsg_precedence st :
  (∀ e, error st = Some e →
        errorMsg st = Some (message_of e) ∧ errorBox st = Some (message_of e))
  ∧ (error st = None → fee_too_low st = true →
     errorMsg st = Some "Bridge fee is high for this amount. Send a larger amount.")
  ∧ (error st = None → fee_too_low st = false → liquidity_insufficient st = true →
     errorMsg st = Some ("Insufficient liquidity for " +:+ symbol_text st +:+ "."))
  ∧ (error st = None → fee_too_low st = false → liquidity_insufficient st = false →
     errorMsg st = None ∧ errorBox st = None)
  ∧ (showError st = true → errorBox st = errorMsg st).
Proof.
  split; [|split; [|split; [|split]]].
  - intros e He. unfold CoinSelection.errorBox, CoinSelection.errorMsg, showError.
    by rewrite He.
  - unfold CoinSelection.errorMsg. by intros -> ->.
  - unfold CoinSelection.errorMsg. by intros -> -> ->.
  - unfold CoinSelection.errorBox, CoinSelection.errorMsg, showError.
    by intros -> -> ->.
  - intros Hshow. unfold CoinSelection.errorBox. rewrite Hshow.
    by destruct (showError_errorMsg st Hshow) as [m ->].
Qed.

Lemma showError_without_error st :
  error st = None →
  showError st
  = (fee_too_low st || liquidity_insufficient st) && (amount st >? 0).
Proof.
  unfold showError. intros ->.
  by destruct (fee_too_low st), (liquidity_insufficient st), (amount st >? 0).
Qed.

(** C10. Without a stored error the box is shown exactly when one of the two
    fee warnings holds and the committed amount is strictly positive; with a
    stored error it is shown whatever the amount. *)
Theorem showError_gates_fee_warnings st :
  (error st = None →
   (showError st = true
    ↔ (fee_too_low st = true ∨ liquidity_insufficient st = true) ∧ amount st > 0)
   ∧ (amount st ≤ 0 → errorBox st = None))
  ∧ (∀ e, error st = Some e →
          showError st = true ∧ errorBox st = Some (message_of e)).
Proof.
  split.
  - intros Hnone. unfold CoinSelection.errorBox.
    rewrite (showError_without_error st Hnone).
    rewrite andb_true_iff, orb_true_iff, Z.gtb_gt. split; [done|].
    intros Hle. destruct (Z.gtb_spec (amount st) 0) as [Hpos|_]; [lia|].
    by rewrite andb_false_r.
  - intros e He.
    unfold CoinSelection.errorBox, showError, CoinSelection.errorMsg.
    by rewrite He.
Qed.

End ComponentFacts.

(** "1.5", "-1" and "1.2.3" entered for ether, with the decimal parser. *)
Lemma handleChange_parses_amount_witness :
  let handleChange := CoinSelection.handleChange Ethers.parseUnits in
  let st := Examples.form_with Examples.ETH_address 7 "7" (Some ParsingError) None in
  (amount (handleChange "" st) = 0
   ∧ error (handleChange "" st) = None
   ∧ inputAmount (handleChange "" st) = "")
  ∧ (Ethers.parseUnits "1.5" 18 = Some 1500000000000000000
     ∧ amount (handleChange "1.5" st) = 1500000000000000000
     ∧ inputAmount (handleChange "1.5" st) = "1.5"
     ∧ error (handleChange "1.5" st) = None)
  ∧ (Ethers.parseUnits "-1" 18 = Some (-1000000000000000000)
     ∧ error (handleChange "-1" st) = Some ParsingError
     ∧ amount (handleChange "-1" st) = 7)
  ∧ (Ethers.parseUnits "1.2.3" 18 = None
     ∧ error (handleChange "1.2.3" st) = Some ParsingError
     ∧ amount (handleChange "1.2.3" st) = 7).
Proof.
  intros handleChange st.
  pose proof (handleChange_parses_amount Ethers.parseUnits)
    as (Hempty & Hparsed & Hnegative & Hfailure).
  split; [exact (Hempty st)|].
  split; [split; [reflexivity|]|split; (split; [reflexivity|])].
  - apply (Hparsed "1.5" st Examples.ether 1500000000000000000);
      [discriminate|reflexivity|reflexivity|lia].
  - apply (Hnegative "-1" st Examples.ether (-1000000000000000000));
      [discriminate|reflexivity|reflexivity|lia].
  - apply (Hfailure "1.2.3" st); [discriminate|].
    right. exists Examples.ether. split; reflexivity.
Defined.

(** 51 ether entered on the example form. *)
Lemma checkBalanceEffect_flags_insufficient_balance_witness :
  let st := handleChange Ethers.parseUnits "51" Examples.form in
  inputAmount st ≠ "" ∧ amount st > 0
  ∧ ∃ st',
      checkBalanceEffect st = Some st'
      ∧ st' = setError (error st') st
      ∧ (error st' = Some insufficient_balance
         ↔ ∃ available, available_balance st = Some available
                        ∧ amount st > available)
      ∧ (error st' ≠ Some insufficient_balance
         → error st' = keep_parsing_error (error st)).
Proof.
  intros st. split; [discriminate|]. split; [reflexivity|].
  apply (proj1 checkBalanceEffect_flags_insufficient_balance st);
    [discriminate|reflexivity].
Defined.

(** A token that is not in the list, and an amount far above every balance. *)
Lemma checkBalanceEffect_absent_balance_witness :
  let st := Examples.form_with "0xdead" (10 ^ 30) "1000000000000" None None in
  (∀ bs, balances st = Some bs → at_index bs (selected_index st) = None)
  ∧ ∃ st',
      checkBalanceEffect st = Some st'
      ∧ st' = (if String.eqb (inputAmount st) "" then st
               else setError (keep_parsing_error (error st)) st)
      ∧ (inputAmount st ≠ "" → error st' ≠ Some insufficient_balance)
      ∧ (error st ≠ Some insufficient_balance → error st' ≠ Some insufficient_balance).
Proof.
  intros st. split.
  - intros bs _. reflexivity.
  - apply (checkBalanceEffect_absent_balance st). intros bs _. reflexivity.
Defined.

(** Max on the example form: 50 ether less the buffer. *)
Lemma handleMaxClick_sets_full_balance_witness :
  let st := Examples.form in
  balances st = Some [100 * 10 ^ 18; 50 * 10 ^ 18]
  ∧ selectedItem st = Some Examples.ether
  ∧ at_index (tokenList st) 1 = Some Examples.ether
  ∧ at_index [100 * 10 ^ 18; 50 * 10 ^ 18] 1 = Some (50 * 10 ^ 18)
  ∧ ∃ st',
      CoinSelection.handleMaxClick Ethers.formatUnits st = Some st'
      ∧ amount st' = 49996000000000000000
      ∧ inputAmount st' = "49.996"
      ∧ st' = setInputAmount (inputAmount st') (setAmount (amount st') st)
      ∧ (symbol Examples.ether = "ETH" → 0 ≤ amount st').
Proof.
  intros st. repeat (split; [reflexivity|]).
  apply (handleMaxClick_sets_full_balance Ethers.formatUnits st
           [100 * 10 ^ 18; 50 * 10 ^ 18] Examples.ether Examples.ether
           (50 * 10 ^ 18)); reflexivity.
Defined.

(** A stored error with both fee warnings raised; then the warnings alone. *)
Lemma errorMsg_precedence_witness :
  let both := Examples.quote_flags true true in
  let st1 := Examples.form_with Examples.ETH_address 5 "5" (Some insufficient_balance) both in
  let st2 := Examples.form_with Examples.ETH_address 5 "5" None both in
  let st3 :=
    Examples.form_with Examples.ETH_address 5 "5" None (Examples.quote_flags false true) in
  let st4 := Examples.form_with Examples.ETH_address 5 "5" None None in
  (CoinSelection.errorMsg "Invalid amount." st1 = Some "Insufficient balance."
   ∧ CoinSelection.errorBox "Invalid amount." st1 = Some "Insufficient balance.")
  ∧ CoinSelection.errorMsg "Invalid amount." st2
    = Some "Bridge fee is high for this amount. Send a larger amount."
  ∧ CoinSelection.errorMsg "Invalid amount." st3 = Some "Insufficient liquidity for ETH."
  ∧ (CoinSelection.errorMsg "Invalid amount." st4 = None
     ∧ CoinSelection.errorBox "Invalid amount." st4 = None).
Proof.
  intros both st1 st2 st3 st4.
  split; [|split; [|split]].
  - apply (proj1 (errorMsg_precedence "Invalid amount." st1) insufficient_balance).
    reflexivity.
  - apply (proj1 (proj2 (errorMsg_precedence "Invalid amount." st2))); reflexivity.
  - apply (proj1 (proj2 (proj2 (errorMsg_precedence "Invalid amount." st3))));
      reflexivity.
  - apply (proj1 (proj2 (proj2 (proj2 (errorMsg_precedence "Invalid amount." st4)))));
      reflexivity.
Defined.

(** The fee warning with nothing committed, and a parsing error with nothing
    committed. *)
Lemma showError_gates_fee_warnings_witness :
  let st := Examples.form_with Examples.ETH_address 0 "0" None (Examples.quote_flags true false) in
  let st' :=
    Examples.form_with Examples.ETH_address 0 "x" (Some ParsingError)
      (Examples.quote_flags true false) in
  (error st = None ∧ amount st ≤ 0
   ∧ CoinSelection.errorBox "Invalid amount." st = None)
  ∧ (error st' = Some ParsingError
     ∧ showError st' = true
     ∧ CoinSelection.errorBox "Invalid amount." st' = Some "Invalid amount.").
Proof.
  intros st st'. split.
  - split; [reflexivity|]. split; [simpl; lia|].
    apply (proj1 (showError_gates_fee_warnings "Invalid amount." st));
      [reflexivity|simpl; lia].
  - split; [reflexivity|].
    apply (proj2 (showError_gates_fee_warnings "Invalid amount." st') ParsingError).
    reflexivity.
Defined.

End CoinSelectionFacts.

(** ** Further properties of the fee-quote handler *)

Module ApiMore.
Import Api ApiFacts.

Lemma position_eq (a b : Event) :
  position a = position b
  ↔ blockNumber a = blockNumber b ∧ transactionIndex a = transactionIndex b
    ∧ logIndex a = logIndex b.
Proof.
  unfold position. split.
  - by intros [= -> -> ->].
  - by intros (-> & -> & ->).
Qed.

(** [a] was emitted strictly before [b]. *)
Lemma strictly_older_iff a b :
  compareEvents a b > 0 ↔ lex_le (position a) (position b) ∧ position a ≠ position b.
Proof.
  rewrite position_eq. unfold compareEvents, lex_le, position.
  destruct (Z.eqb_spec (blockNumber b) (blockNumber a));
    destruct (Z.eqb_spec (transactionIndex b) (transactionIndex a)); simpl; lia.
Qed.

(** X1. The comparator handed to [sort] is consistent: swapping its
    arguments negates it, it is zero exactly for two events at the same
    position, and it is negative exactly when its first argument is the
    strictly more recent one. *)
Theorem compareEvents_consistent a b :
  compareEvents b a = - compareEvents a b
  ∧ (compareEvents a b = 0 ↔ position a = position b)
  ∧ (compareEvents a b < 0
     ↔ lex_le (position b) (position a) ∧ position b ≠ position a).
Proof.
  rewrite !position_eq. unfold compareEvents, lex_le, position.
  destruct (Z.eqb_spec (blockNumber b) (blockNumber a));
    destruct (Z.eqb_spec (blockNumber a) (blockNumber b));
    destruct (Z.eqb_spec (transactionIndex b) (transactionIndex a));
    destruct (Z.eqb_spec (transactionIndex a) (transactionIndex b));
    simpl; lia.
Qed.

(** X2. Sorting rearranges the events without adding or dropping one, and
    leaves them from most recent to oldest: each event of the result is at
    least as recent as every later one. *)
Theorem sorted_events_most_recent_first (events : list Event) :
  Permutation (sort compareEvents events) events
  ∧ StronglySorted (λ a b, lex_le (position b) (position a))
      (sort compareEvents events).
Proof.
  split; [apply sort_Permutation|].
  pose proof (sort_StronglySorted compareEvents compareEvents_total
                compareEvents_trans events) as Hsorted.
  induction Hsorted as [|a l Hl IH Ha]; constructor; [done|].
  eapply Forall_impl; [exact Ha|]. intros b Hb. by apply compareEvents_lex.
Qed.

Lemma sort_nil_inv (events : list Event) : sort compareEvents events = [] → events = [].
Proof.
  intros Hs. pose proof (sort_Permutation compareEvents events) as Hperm.
  rewrite Hs in Hperm. by apply Permutation_nil in Hperm.
Qed.

(** X3. Ties go to the event the node listed first: the selected event
    splits the list into events before it, all strictly older, and events
    after it, none more recent. *)
Theorem sort_selects_first_most_recent (events : list Event) e :
  head (sort compareEvents events) = Some e →
  ∃ earlier later,
    events = (earlier ++ e :: later)%list
    ∧ Forall (λ x, lex_le (position x) (position e) ∧ position x ≠ position e) earlier
    ∧ Forall (λ x, lex_le (position x) (position e)) later.
Proof.
  revert e. induction events as [|x l IH]; intros e; [done|].
  simpl. fold (sort compareEvents l).
  destruct (sort compareEvents l) as [|y r] eqn:Hs.
  - apply sort_nil_inv in Hs as ->. simpl. intros [= <-].
    exists [], []. by repeat constructor.
  - destruct (IH y eq_refl) as (l1 & l2 & -> & Hl1 & Hl2). simpl.
    destruct (Z.leb_spec (compareEvents x y) 0) as [Hle|Hgt]; simpl; intros [= <-].
    + assert (lex_le (position y) (position x)) as Hyx
        by by apply compareEvents_lex.
      exists [], (l1 ++ y :: l2)%list. split; [done|]. split; [constructor|].
      apply Forall_app. split; [|constructor].
      * eapply Forall_impl; [exact Hl1|]. intros z [Hz _].
        exact (lex_le_trans (position z) (position y) (position x) Hz Hyx).
      * done.
      * eapply Forall_impl; [exact Hl2|]. intros z Hz.
        exact (lex_le_trans (position z) (position y) (position x) Hz Hyx).
    + exists (x :: l1), l2. split; [done|]. split; [|done].
      constructor; [|done]. apply strictly_older_iff. lia.
Qed.

Lemma filter_Permutation_events (f : Event → bool) l1 l2 :
  Permutation l1 l2 → Permutation (List.filter f l1) (List.filter f l2).
Proof.
  induction 1 as [|x l l' _ IH|x y l|l l' l'' _ IH1 _ IH2]; simpl.
  - done.
  - destruct (f x); [by constructor|done].
  - destruct (f x), (f y); try done. apply perm_swap.
  - by rewrite IH1.
Qed.

Lemma NoDup_position_inj (l : list Event) a b :
  NoDup (map position l) → In a l → In b l → position a = position b → a = b.
Proof.
  induction l as [|x l IH]; simpl; [done|].
  intros Hnd [->|Ha] [->|Hb] Heq; inversion Hnd as [|? ? Hnotin Hnd']; subst.
  - done.
  - exfalso. apply Hnotin. rewrite list_elem_of_In, Heq. by apply in_map.
  - exfalso. apply Hnotin. rewrite list_elem_of_In, <- Heq. by apply in_map.
  - by apply IH.
Qed.

(** X4. When no two events of the node's answer share a position, the
    order in which the node lists them does not matter: two answers that
    are permutations of each other resolve to the same result. *)
Theorem getTokenDetails_order_independent
    (isAddress : string → bool) (invalidAddress : string → string)
    (queryFilter1 queryFilter2 : string → Outcome (list Event))
    provider l2Token chainId log1 log2 :
  queryFilter1 l2Token = Fulfilled log1 →
  queryFilter2 l2Token = Fulfilled log2 →
  Permutation log1 log2 →
  NoDup (map position log1) →
  fst (run (getTokenDetails isAddress invalidAddress queryFilter1
              provider l2Token chainId))
  = fst (run (getTokenDetails isAddress invalidAddress queryFilter2
                provider l2Token chainId)).
Proof.
  intros Hq1 Hq2 Hperm Hnd. unfold run.
  destruct (isAddress l2Token) eqn:Hok; cycle 1.
  { by rewrite !getTokenDetails_invalid. }
  rewrite (getTokenDetails_run _ _ _ _ _ _ log1),
    (getTokenDetails_run _ _ _ _ _ _ log2) by done. simpl.
  pose proof (filter_Permutation_events (chainId_matches chainId) _ _ Hperm) as Hf.
  fold (matching_events chainId log1) in Hf.
  fold (matching_events chainId log2) in Hf.
  destruct (matching_events chainId log1) as [|x1 m1] eqn:Hm1.
  { apply Permutation_nil in Hf. by rewrite Hf. }
  destruct (matching_events chainId log2) as [|x2 m2] eqn:Hm2.
  { symmetry in Hf. by apply Permutation_nil in Hf. }
  destruct (sorted_events_head (x1 :: m1)) as (e1 & r1 & -> & Hin1 & Hmax1); [done|].
  destruct (sorted_events_head (x2 :: m2)) as (e2 & r2 & -> & Hin2 & Hmax2); [done|].
  assert (In e1 (x2 :: m2)) as Hin12 by by eapply Permutation_in.
  assert (In e2 (x1 :: m1)) as Hin21
    by by eapply Permutation_in; [apply Permutation_sym|].
  assert (e1 = e2) as ->; [|done].
  apply (NoDup_position_inj log1); [done| | |].
  - rewrite <- Hm1 in Hin1. by apply filter_In in Hin1 as [? _].
  - rewrite <- Hm1 in Hin21. by apply filter_In in Hin21 as [? _].
  - apply lex_le_antisym; [by apply Hmax2|by apply Hmax1].
Qed.

Section HandlerMore.
Variable REACT_APP_PUBLIC_INFURA_ID : string.
Variables WETH ETH : string.
Variable isAddress : string → bool.
Variable invalidAddress : string → string.
Variable queryFilter : string → Outcome (list Event).
Variable getDepositFeesDetails : string → string → Outcome DepositFeeDetails.

Local Abbreviation handler :=
  (Api.handler REACT_APP_PUBLIC_INFURA_ID WETH ETH isAddress invalidAddress
     queryFilter getDepositFeesDetails).
Local Abbreviation getTokenDetails :=
  (Api.getTokenDetails isAddress invalidAddress queryFilter).
Local Abbreviation provider_url := ("https://mainnet.infura.io/v3/" +:+ REACT_APP_PUBLIC_INFURA_ID).

(** [getTokenDetails] on an address and a node that rejects the query. *)
Lemma getTokenDetails_rejected provider l2Token chainId msg tr :
  isAddress l2Token = true →
  queryFilter l2Token = Rejected msg →
  getTokenDetails provider l2Token chainId tr
  = (Rejected msg, (tr ++ [QueryFilter l2Token])%list).
Proof.
  intros Hok Hq.
  unfold Api.getTokenDetails, await, WhitelistToken, resolve, perform.
  by rewrite Hok, Hq.
Qed.

(** What [getTokenDetails] resolves with comes from the node's answer. *)
Lemma getTokenDetails_resolved_inv provider l2Token chainId details tr :
  fst (getTokenDetails provider l2Token chainId tr) = Fulfilled details →
  ∃ log event rest,
    isAddress l2Token = true
    ∧ queryFilter l2Token = Fulfilled log
    ∧ sort compareEvents (matching_events chainId log) = event :: rest
    ∧ args event = details.
Proof.
  intros Hres. destruct (isAddress l2Token) eqn:Hok; cycle 1.
  { by rewrite getTokenDetails_invalid in Hres. }
  destruct (queryFilter l2Token) as [log|msg] eqn:Hq.
  - rewrite (getTokenDetails_run _ _ _ _ _ _ log) in Hres by done. simpl in Hres.
    destruct (sort compareEvents (matching_events chainId log))
      as [|event rest] eqn:Hs; [done|].
    injection Hres as <-. by exists log, event, rest.
  - by rewrite (getTokenDetails_rejected _ _ _ msg) in Hres.
Qed.

(** X5. Whatever [getTokenDetails] resolves with are the arguments of an
    event that the node returned for the L2 token and whose chain id, in
    decimal, is the requested [chainId] string; it is never made up and
    never taken from another chain. *)
Theorem getTokenDetails_resolves_requested_chain provider l2Token chainId details :
  fst (run (getTokenDetails provider l2Token chainId)) = Fulfilled details →
  pretty (args_chainId details) = chainId
  ∧ ∃ log event,
      queryFilter l2Token = Fulfilled log ∧ In event log ∧ args event = details.
Proof.
  intros Hres.
  destruct (getTokenDetails_resolved_inv provider l2Token chainId details [] Hres)
    as (log & event & rest & Hok & Hq & Hs & <-).
  assert (In event (matching_events chainId log)) as Hin.
  { eapply Permutation_in; [apply (sort_Permutation compareEvents)|].
    rewrite Hs. by left. }
  apply filter_In in Hin as [Hin Hmatch].
  split; [by apply String.eqb_eq|]. by exists log, event.
Qed.

(** The handler past its guard, on an address and a node that rejects the
    query. *)
Lemma handler_run_node_rejected amount l2Token chainId msg :
  isAddress l2Token = true →
  queryFilter l2Token = Rejected msg →
  run (handler (request_of (QString amount) (QString l2Token) (QString chainId)))
  = (Rejected msg, [NewJsonRpcProvider provider_url; QueryFilter l2Token]).
Proof.
  intros Hok Hq. unfold run, Api.handler. unfold await at 1. simpl.
  unfold await at 1. by rewrite (getTokenDetails_rejected _ _ _ msg).
Qed.

(** The handler stopped by its guard. *)
Lemma handler_run_guarded (request : Request) :
  isString (Api.amount (query request)) = false
  ∨ isString (Api.l2Token (query request)) = false
  ∨ isString (Api.chainId (query request)) = false →
  run (handler request)
  = (Rejected "Must provide amount and token as query params",
     [NewJsonRpcProvider provider_url]).
Proof.
  intros Hbad.
  unfold run, Api.handler, await, newJsonRpcProvider, perform, throw. simpl.
  destruct Hbad as [-> | [-> | ->] ]; simpl; rewrite ?orb_true_r; done.
Qed.

(** The handler past its guard, on a string that is no address. *)
Lemma handler_run_invalid amount l2Token chainId :
  isAddress l2Token = false →
  run (handler (request_of (QString amount) (QString l2Token) (QString chainId)))
  = (Rejected (invalidAddress l2Token), [NewJsonRpcProvider provider_url]).
Proof.
  intros Hbad. unfold run, Api.handler. unfold await at 1. simpl.
  unfold await at 1.
  by rewrite (getTokenDetails_invalid isAddress invalidAddress queryFilter).
Qed.

(** X6. The successful path: with three string parameters, a resolved token
    and an answer of the SDK, the handler responds with status 200 and a
    body that carries the slow and the instant percentage of that answer,
    after exactly three calls: provider, event query, fee computation. *)
Theorem handler_responds_with_quote (request : Request)
    amount l2Token chainId details fees :
  Api.amount (query request) = QString amount →
  Api.l2Token (query request) = QString l2Token →
  Api.chainId (query request) = QString chainId →
  fst (run (getTokenDetails {| connection_url := provider_url |} l2Token chainId))
    = Fulfilled details →
  let forwarded :=
    if String.eqb (args_l1Token details) WETH then ETH else args_l1Token details in
  getDepositFeesDetails amount forwarded = Fulfilled fees →
  run (handler request)
  = (Fulfilled {| status := 200;
                  json := {| slowFeePct := pct (slow fees);
                             fastFeePct := pct (instant fees) |} |},
     [NewJsonRpcProvider provider_url; QueryFilter l2Token;
      GetDepositFeesDetails amount forwarded]).
Proof.
  intros Ha Ht Hc Hres forwarded Hfees.
  rewrite (request_eta request _ _ _ Ha Ht Hc).
  destruct (getTokenDetails_resolved_inv {| connection_url := provider_url |}
              l2Token chainId details [] Hres)
    as (log & event & rest & Hok & Hq & Hs & <-).
  rewrite (handler_run _ _ _ _ _ _ _ _ _ _ log) by done.
  rewrite Hs. simpl. fold forwarded. by rewrite Hfees.
Qed.

(** X7. For an L2 token address, a rejection of the event query is the
    handler's rejection, with the same message, and no fee computation is
    asked for. *)
Theorem handler_propagates_query_rejection (request : Request)
    amount l2Token chainId msg :
  Api.amount (query request) = QString amount →
  Api.l2Token (query request) = QString l2Token →
  Api.chainId (query request) = QString chainId →
  isAddress l2Token = true →
  queryFilter l2Token = Rejected msg →
  run (handler request)
  = (Rejected msg, [NewJsonRpcProvider provider_url; QueryFilter l2Token]).
Proof.
  intros Ha Ht Hc Hok Hq. rewrite (request_eta request _ _ _ Ha Ht Hc).
  by apply handler_run_node_rejected.
Qed.

(** X21. An L2 token that is a string but no address is rejected while the
    event filter is built, with the error of the address check: the node is
    not queried and no fee computation is asked for, whatever the node would
    have answered. *)
Theorem handler_rejects_malformed_token (request : Request) amount l2Token chainId :
  Api.amount (query request) = QString amount →
  Api.l2Token (query request) = QString l2Token →
  Api.chainId (query request) = QString chainId →
  isAddress l2Token = false →
  run (handler request)
  = (Rejected (invalidAddress l2Token), [NewJsonRpcProvider provider_url]).
Proof.
  intros Ha Ht Hc Hbad. rewrite (request_eta request _ _ _ Ha Ht Hc).
  by apply handler_run_invalid.
Qed.

(** X8. A rejection of the fee computation is the handler's rejection, with
    the same message: no response is sent. *)
Theorem handler_propagates_fee_rejection (request : Request)
    amount l2Token chainId details msg :
  Api.amount (query request) = QString amount →
  Api.l2Token (query request) = QString l2Token →
  Api.chainId (query request) = QString chainId →
  fst (run (getTokenDetails {| connection_url := provider_url |} l2Token chainId))
    = Fulfilled details →
  getDepositFeesDetails amount
    (if String.eqb (args_l1Token details) WETH then ETH else args_l1Token details)
    = Rejected msg →
  fst (run (handler request)) = Rejected msg.
Proof.
  intros Ha Ht Hc Hres Hfees.
  rewrite (request_eta request _ _ _ Ha Ht Hc).
  destruct (getTokenDetails_resolved_inv {| connection_url := provider_url |}
              l2Token chainId details [] Hres)
    as (log & event & rest & Hok & Hq & Hs & <-).
  rewrite (handler_run _ _ _ _ _ _ _ _ _ _ log) by done.
  rewrite Hs. simpl. by rewrite Hfees.
Qed.

(** X9. For every request and every behaviour of the node and of the SDK,
    the handler builds the provider, then asks at most one event query,
    then at most one fee computation, in that order; and when it responds,
    the status is 200 and all three calls were made. *)
Theorem handler_call_discipline (request : Request) :
  ∃ l2Token amount l1Token,
    (snd (run (handler request)) = [NewJsonRpcProvider provider_url]
     ∨ snd (run (handler request))
       = [NewJsonRpcProvider provider_url; QueryFilter l2Token]
     ∨ snd (run (handler request))
       = [NewJsonRpcProvider provider_url; QueryFilter l2Token;
          GetDepositFeesDetails amount l1Token])
    ∧ ∀ response,
        fst (run (handler request)) = Fulfilled response →
        status response = 200
        ∧ snd (run (handler request))
          = [NewJsonRpcProvider provider_url; QueryFilter l2Token;
             GetDepositFeesDetails amount l1Token].
Proof.
  destruct (isString (Api.amount (query request))
            && isString (Api.l2Token (query request))
            && isString (Api.chainId (query request))) eqn:Hvalid.
  - apply andb_true_iff in Hvalid as [Hvalid Hc].
    apply andb_true_iff in Hvalid as [Ha Ht].
    destruct request as [[[|a|] [|t|] [|c|]]]; try done. clear Ha Ht Hc.
    fold (request_of (QString a) (QString t) (QString c)).
    destruct (isAddress t) eqn:Hok; cycle 1.
    { rewrite handler_run_invalid by done.
      exists "", "", "". split; [by left|done]. }
    destruct (queryFilter t) as [log|msg] eqn:Hq.
    + rewrite (handler_run _ _ _ _ _ _ _ _ _ _ log) by done.
      destruct (sort compareEvents (matching_events c log)) as [|event rest].
      * exists t, "", "". split; [by right; left|done].
      * eexists t, a, _. simpl. split; [by right; right|].
        intros response.
        by destruct (getDepositFeesDetails a _); intros [= <-].
    + rewrite (handler_run_node_rejected _ _ _ msg) by done.
      exists t, "", "". split; [by right; left|done].
  - assert (isString (Api.amount (query request)) = false
            ∨ isString (Api.l2Token (query request)) = false
            ∨ isString (Api.chainId (query request)) = false) as Hbad.
    { destruct (isString (Api.amount (query request))); [|by left].
      destruct (isString (Api.l2Token (query request))); [|by right; left].
      by right; right. }
    rewrite (handler_run_guarded request Hbad).
    exists "", "", "". split; [by left|done].
Qed.

End HandlerMore.

(** Two events at (10,0,1): the one listed first is selected. *)
Lemma sort_selects_first_most_recent_witness :
  head (sort compareEvents Examples.tied_events)
    = Some (Examples.whitelisted Examples.DAI_address 10 0 1)
  ∧ ∃ earlier later,
      Examples.tied_events
        = (earlier ++ Examples.whitelisted Examples.DAI_address 10 0 1 :: later)%list
      ∧ Forall (λ x, lex_le (position x)
                       (position (Examples.whitelisted Examples.DAI_address 10 0 1))
                     ∧ position x ≠ position (Examples.whitelisted Examples.DAI_address 10 0 1))
          earlier
      ∧ Forall (λ x, lex_le (position x)
                       (position (Examples.whitelisted Examples.DAI_address 10 0 1)))
          later.
Proof.
  split; [reflexivity|].
  apply (sort_selects_first_most_recent Examples.tied_events). reflexivity.
Defined.

(** The three events, listed in either order. *)
Lemma getTokenDetails_order_independent_witness :
  Examples.node Examples.L2_token = Fulfilled Examples.three_events
  ∧ Examples.node_reversed Examples.L2_token = Fulfilled (rev Examples.three_events)
  ∧ Permutation Examples.three_events (rev Examples.three_events)
  ∧ NoDup (map position Examples.three_events)
  ∧ fst (run (Api.getTokenDetails Examples.isAddress Examples.invalidAddress
                Examples.node {| connection_url := "rpc" |}
                Examples.L2_token "10"))
    = fst (run (Api.getTokenDetails Examples.isAddress Examples.invalidAddress
                  Examples.node_reversed
                  {| connection_url := "rpc" |} Examples.L2_token "10")).
Proof.
  assert (NoDup (map position Examples.three_events)) as Hnd.
  { repeat constructor; rewrite list_elem_of_In; simpl; intuition discriminate. }
  split; [reflexivity|]. split; [reflexivity|].
  split; [apply Permutation_rev|]. split; [exact Hnd|].
  apply (getTokenDetails_order_independent Examples.isAddress
           Examples.invalidAddress Examples.node Examples.node_reversed
           {| connection_url := "rpc" |} Examples.L2_token "10"
           Examples.three_events (rev Examples.three_events));
    [reflexivity|reflexivity|apply Permutation_rev|exact Hnd].
Defined.

Lemma getTokenDetails_resolves_requested_chain_witness :
  let details := args (Examples.whitelisted Examples.WETH_address 10 0 1) in
  fst (run (Api.getTokenDetails Examples.isAddress Examples.invalidAddress
              Examples.node {| connection_url := "rpc" |}
              Examples.L2_token "10"))
    = Fulfilled details
  ∧ pretty (args_chainId details) = "10"
  ∧ ∃ log event,
      Examples.node Examples.L2_token = Fulfilled log
      ∧ In event log ∧ args event = details.
Proof.
  split; [reflexivity|].
  by apply (getTokenDetails_resolves_requested_chain Examples.isAddress
              Examples.invalidAddress Examples.node
              {| connection_url := "rpc" |} Examples.L2_token "10").
Defined.

Lemma handler_responds_with_quote_witness :
  let request :=
    request_of (QString "1000") (QString Examples.L2_token) (QString "10") in
  let details := args (Examples.whitelisted Examples.WETH_address 10 0 1) in
  fst (run (Api.getTokenDetails Examples.isAddress Examples.invalidAddress
              Examples.node {| connection_url := "https://mainnet.infura.io/v3/id" |}
              Examples.L2_token "10"))
    = Fulfilled details
  ∧ Examples.quote "1000" Examples.ETH_address
    = Fulfilled {| slow := {| pct := "1000" |}; instant := {| pct := "2000" |} |}
  ∧ run (Api.handler "id" Examples.WETH_address Examples.ETH_address
           Examples.isAddress Examples.invalidAddress
           Examples.node Examples.quote request)
    = (Fulfilled {| status := 200;
                    json := {| slowFeePct := "1000"; fastFeePct := "2000" |} |},
       [NewJsonRpcProvider "https://mainnet.infura.io/v3/id";
        QueryFilter Examples.L2_token;
        GetDepositFeesDetails "1000" Examples.ETH_address]).
Proof.
  split; [reflexivity|]. split; [reflexivity|].
  exact (handler_responds_with_quote "id" Examples.WETH_address
           Examples.ETH_address Examples.isAddress Examples.invalidAddress
              Examples.node Examples.quote
           (request_of (QString "1000") (QString Examples.L2_token) (QString "10"))
           "1000" Examples.L2_token "10"
           (args (Examples.whitelisted Examples.WETH_address 10 0 1))
           {| slow := {| pct := "1000" |}; instant := {| pct := "2000" |} |}
           eq_refl eq_refl eq_refl eq_refl eq_refl).
Defined.

Lemma handler_propagates_query_rejection_witness :
  let request :=
    request_of (QString "1000") (QString Examples.L2_token) (QString "10") in
  Examples.isAddress Examples.L2_token = true
  ∧ Examples.node_down Examples.L2_token = Rejected "could not detect network"
  ∧ run (Api.handler "id" Examples.WETH_address Examples.ETH_address
           Examples.isAddress Examples.invalidAddress
           Examples.node_down Examples.quote request)
    = (Rejected "could not detect network",
       [NewJsonRpcProvider "https://mainnet.infura.io/v3/id";
        QueryFilter Examples.L2_token]).
Proof.
  split; [reflexivity|]. split; [reflexivity|].
  exact (handler_propagates_query_rejection "id" Examples.WETH_address
           Examples.ETH_address Examples.isAddress Examples.invalidAddress
           Examples.node_down Examples.quote
           (request_of (QString "1000") (QString Examples.L2_token) (QString "10"))
           "1000" Examples.L2_token "10" "could not detect network"
           eq_refl eq_refl eq_refl eq_refl eq_refl).
Defined.

(** "0xL2" is a string and no address. *)
Lemma handler_rejects_malformed_token_witness :
  let request :=
    request_of (QString "1000") (QString Examples.malformed_token) (QString "10") in
  Examples.isAddress Examples.malformed_token = false
  ∧ run (Api.handler "id" Examples.WETH_address Examples.ETH_address
           Examples.isAddress Examples.invalidAddress
           Examples.node Examples.quote request)
    = (Rejected "invalid address",
       [NewJsonRpcProvider "https://mainnet.infura.io/v3/id"]).
Proof.
  split; [reflexivity|].
  exact (handler_rejects_malformed_token "id" Examples.WETH_address
           Examples.ETH_address Examples.isAddress Examples.invalidAddress
           Examples.node Examples.quote
           (request_of (QString "1000") (QString Examples.malformed_token)
              (QString "10"))
           "1000" Examples.malformed_token "10"
           eq_refl eq_refl eq_refl eq_refl).
Defined.

Lemma handler_propagates_fee_rejection_witness :
  let request :=
    request_of (QString "1000") (QString Examples.L2_token) (QString "10") in
  let details := args (Examples.whitelisted Examples.WETH_address 10 0 1) in
  fst (run (Api.getTokenDetails Examples.isAddress Examples.invalidAddress
              Examples.node {| connection_url := "https://mainnet.infura.io/v3/id" |}
              Examples.L2_token "10"))
    = Fulfilled details
  ∧ Examples.quote_down "1000" Examples.ETH_address = Rejected "missing response"
  ∧ fst (run (Api.handler "id" Examples.WETH_address Examples.ETH_address
                Examples.isAddress Examples.invalidAddress
                Examples.node Examples.quote_down request))
    = Rejected "missing response".
Proof.
  split; [reflexivity|]. split; [reflexivity|].
  by apply (handler_propagates_fee_rejection "id" Examples.WETH_address
              Examples.ETH_address Examples.isAddress Examples.invalidAddress
              Examples.node Examples.quote_down _
              "1000" Examples.L2_token "10"
              (args (Examples.whitelisted Examples.WETH_address 10 0 1))).
Defined.

End ApiMore.

(** ** Further properties of the selection form *)

Module CoinSelectionMore.
Import CoinSelection CoinSelectionFacts.

(** [findIndex] and [find] with one predicate designate the same element. *)
Lemma findIndex_from_find {A} (p : A → bool) l i :
  0 ≤ i →
  match List.find p l with
  | Some x =>
      i ≤ findIndex_from p l i ∧ l !! Z.to_nat (findIndex_from p l i - i) = Some x
  | None => findIndex_from p l i = -1
  end.
Proof.
  revert i. induction l as [|x l IH]; intros i Hi; simpl; [done|].
  destruct (p x) eqn:Hp.
  - split; [lia|]. by rewrite Z.sub_diag.
  - specialize (IH (i + 1) ltac:(lia)).
    destruct (List.find p l) as [y|]; [|done].
    destruct IH as [Hle Hy]. split; [lia|].
    replace (Z.to_nat (findIndex_from p l (i + 1) - i))
      with (S (Z.to_nat (findIndex_from p l (i + 1) - (i + 1)))) by lia.
    done.
Qed.

Lemma at_index_findIndex {A} (p : A → bool) l :
  at_index l (findIndex p l) = List.find p l.
Proof.
  unfold findIndex, at_index.
  pose proof (findIndex_from_find p l 0 ltac:(lia)) as H.
  destruct (List.find p l) as [x|].
  - destruct H as [Hle Hx]. destruct (Z.ltb_spec (findIndex_from p l 0) 0); [lia|].
    by rewrite Z.sub_0_r in Hx.
  - by rewrite H.
Qed.

Lemma find_none_iff {A} (p : A → bool) l :
  List.find p l = None ↔ Forall (λ x, p x = false) l.
Proof.
  induction l as [|x l IH]; simpl; [by split; [constructor|]|].
  destruct (p x) eqn:Hp.
  - split; [done|]. intros H. apply Forall_cons in H as [H _]. congruence.
  - rewrite IH. split; [by constructor|].
    intros H. by apply Forall_cons in H as [_ H].
Qed.

Lemma find_in_list {A} (p : A → bool) l x :
  List.find p l = Some x → In x l ∧ p x = true.
Proof. apply List.find_some. Qed.

(** X10. Selecting a token resets the form: nothing is committed, nothing
    is displayed in the field, no error is stored, the store's token is the
    selected one; no error box is shown whatever the fee quote says, and the
    balance check that follows changes nothing.  A selection of nothing
    leaves the form as it is. *)
Theorem selection_resets_form (ParsingError_message : string) st item :
  let st' := onSelectedItemChange (Some item) st in
  amount st' = 0 ∧ error st' = None ∧ inputAmount st' = ""
  ∧ token st' = address item
  ∧ (tokenList st' = tokenList st ∧ balances st' = balances st ∧ fees st' = fees st)
  ∧ errorBox ParsingError_message st' = None
  ∧ checkBalanceEffect st' = Some st'
  ∧ onSelectedItemChange None st = st.
Proof.
  simpl. repeat split.
  unfold errorBox. rewrite showError_without_error by done. simpl.
  by rewrite andb_false_r.
Qed.

(** X11. The item handed to [selectItem] by the synchronising effect is
    always an entry of the token list: the first one with the store's token
    address, which is also the entry at the index the balance check and
    [findIndex] use, and the first entry of the list when the store's token
    is not listed; there is none only when the list is empty. *)
Theorem syncedItem_from_list st :
  (syncedItem st = None ↔ tokenList st = [])
  ∧ (∀ t, syncedItem st = Some t →
          In t (tokenList st)
          ∧ (address t = token st
             ∨ (head (tokenList st) = Some t
                ∧ Forall (λ x, address x ≠ token st) (tokenList st))))
  ∧ (∀ x, In x (tokenList st) → address x = token st →
          ∃ t, syncedItem st = Some t ∧ address t = token st)
  ∧ at_index (tokenList st) (selected_index st) = defaultSelectedItem st.
Proof.
  unfold syncedItem, defaultSelectedItem, selected_index.
  set (p := λ t, String.eqb (address t) (token st)).
  split; [|split; [|split]].
  - destruct (List.find p (tokenList st)) as [t|] eqn:Hfind.
    + split; [done|]. intros Hnil. by rewrite Hnil in Hfind.
    + by destruct (tokenList st).
  - intros t. destruct (List.find p (tokenList st)) as [t'|] eqn:Hfind.
    + intros [= <-]. apply find_in_list in Hfind as [Hin Hp].
      split; [done|]. left. by apply String.eqb_eq.
    + intros Hhead. split.
      * destruct (tokenList st) as [|y l]; [done|].
        injection Hhead as <-. by left.
      * right. split; [done|]. apply find_none_iff in Hfind.
        eapply Forall_impl; [exact Hfind|]. intros x Hx.
        by apply String.eqb_neq.
  - intros x Hin Hx. destruct (List.find p (tokenList st)) as [t|] eqn:Hfind.
    + exists t. split; [done|].
      apply find_in_list in Hfind as [_ Hp]. by apply String.eqb_eq.
    + apply find_none_iff in Hfind. rewrite List.Forall_forall in Hfind.
      specialize (Hfind x Hin). apply String.eqb_neq in Hfind. done.
  - apply at_index_findIndex.
Qed.

Lemma keep_parsing_error_idem e :
  keep_parsing_error (keep_parsing_error e) = keep_parsing_error e.
Proof. by destruct e as [[|m]|]. Qed.

(** The available balance does not depend on the stored error. *)
Lemma available_balance_setError e st :
  available_balance (setError e st) = available_balance st.
Proof. reflexivity. Qed.

(** The effect, whatever the state. *)
Lemma checkBalanceEffect_run st :
  checkBalanceEffect st
  = Some (if String.eqb (inputAmount st) "" then st
          else
            let st1 := setError (keep_parsing_error (error st)) st in
            match available_balance st with
            | Some available =>
                if (amount st >? 0) && (amount st >? available)
                then setError (Some insufficient_balance) st1 else st1
            | None => st1
            end).
Proof.
  destruct (String.eqb_spec (inputAmount st) "") as [Heq|Hne].
  - rewrite checkBalanceEffect_idle by (by left). by rewrite Heq.
  - destruct (Z.gtb_spec (amount st) 0) as [Hpos|Hle]; simpl.
    + by rewrite checkBalanceEffect_positive by (done || lia).
    + rewrite checkBalanceEffect_idle by (by right).
      rewrite (eqb_empty_false _ Hne). by destruct (available_balance st).
Qed.

(** X12. The balance check always completes, changes nothing but the stored
    error, ends with the previous error, no error, or the insufficient
    balance error, and running it again on its result changes nothing. *)
Theorem checkBalanceEffect_settles st :
  ∃ st',
    checkBalanceEffect st = Some st'
    ∧ st' = setError (error st') st
    ∧ (error st' = error st ∨ error st' = None
       ∨ error st' = Some insufficient_balance)
    ∧ checkBalanceEffect st' = Some st'.
Proof.
  eexists. split; [apply checkBalanceEffect_run|].
  destruct (String.eqb_spec (inputAmount st) "") as [Heq|Hne].
  - split; [by destruct st|]. split; [by left|].
    rewrite checkBalanceEffect_run. by rewrite Heq.
  - simpl. destruct (available_balance st) as [available|] eqn:Hav.
    + destruct ((amount st >? 0) && (amount st >? available)) eqn:Hexceeds.
      * split; [done|]. split; [by right; right|].
        rewrite checkBalanceEffect_run. simpl.
        rewrite (eqb_empty_false _ Hne).
        rewrite !available_balance_setError, Hav. by rewrite Hexceeds.
      * split; [done|]. split.
        { simpl. destruct (error st) as [[|m]|]; simpl; auto. }
        rewrite checkBalanceEffect_run. simpl.
        rewrite (eqb_empty_false _ Hne).
        rewrite !available_balance_setError, Hav, Hexceeds.
        by rewrite keep_parsing_error_idem.
    + split; [done|]. split.
      { simpl. destruct (error st) as [[|m]|]; simpl; auto. }
      rewrite checkBalanceEffect_run. simpl.
      rewrite (eqb_empty_false _ Hne).
      rewrite !available_balance_setError, Hav.
      by rewrite keep_parsing_error_idem.
Qed.

Section ComponentMore.
Variable parseUnits : string → nat → option Z.
Variable formatUnits : Z → nat → string.

Local Abbreviation handleChange := (CoinSelection.handleChange parseUnits).
Local Abbreviation handleMaxClick := (CoinSelection.handleMaxClick formatUnits).
Local Abbreviation parse_amount := (CoinSelection.parse_amount parseUnits).
Local Abbreviation step := (CoinSelection.step parseUnits formatUnits).
Local Abbreviation replay := (CoinSelection.replay parseUnits formatUnits).

Lemma parse_amount_nonneg st value parsed :
  parse_amount st value = Some parsed → 0 ≤ parsed.
Proof.
  unfold CoinSelection.parse_amount.
  destruct (selectedItem st) as [item|]; simpl; [|done].
  destruct (parseUnits value (decimals item)) as [a|]; simpl; [|done].
  destruct (Z.ltb_spec a 0); [done|]. by intros [= <-].
Qed.

(** [handleChange] in one equation per case. *)
Lemma handleChange_run value st :
  handleChange value st
  = if String.eqb value "" then setError None (setAmount 0 (setInputAmount "" st))
    else match parse_amount st value with
         | Some parsed =>
             setError (if instanceof_ParsingError (error st) then None else error st)
               (setAmount parsed (setInputAmount value st))
         | None => setError (Some ParsingError) (setInputAmount value st)
         end.
Proof.
  unfold CoinSelection.handleChange.
  destruct (String.eqb_spec value "") as [->|Hne]; [done|].
  destruct (parse_amount st value); [|done].
  destruct (instanceof_ParsingError (error st)); [done|]. by destruct st.
Qed.

(** [parse_amount] reads the selected item only. *)
Lemma parse_amount_frame st st' value :
  selectedItem st' = selectedItem st →
  parse_amount st' value = parse_amount st value.
Proof. unfold CoinSelection.parse_amount. by intros ->. Qed.

(** X13. The field always shows what was typed, accepted or not; typing
    touches nothing but the displayed text, the committed amount and the
    stored error; and typing the same text again changes nothing more. *)
Theorem handleChange_mirrors_input value st :
  inputAmount (handleChange value st) = value
  ∧ (token (handleChange value st) = token st
     ∧ tokenList (handleChange value st) = tokenList st
     ∧ balances (handleChange value st) = balances st
     ∧ selectedItem (handleChange value st) = selectedItem st
     ∧ fees (handleChange value st) = fees st)
  ∧ handleChange value (handleChange value st) = handleChange value st.
Proof.
  assert (selectedItem (handleChange value st) = selectedItem st) as Hitem.
  { rewrite handleChange_run. destruct (String.eqb value ""); [done|].
    by destruct (parse_amount st value). }
  split; [|split].
  - rewrite handleChange_run.
    destruct (String.eqb_spec value "") as [->|]; [done|].
    by destruct (parse_amount st value).
  - rewrite handleChange_run. destruct (String.eqb value ""); [done|].
    by destruct (parse_amount st value).
  - rewrite (handleChange_run value (handleChange value st)).
    rewrite (parse_amount_frame st _ value Hitem).
    rewrite (handleChange_run value st).
    destruct (String.eqb value ""); [done|].
    destruct (parse_amount st value) as [parsed|]; [|done].
    by destruct (error st) as [[|m]|].
Qed.

(** X14. After a non-empty input the parsing error is stored exactly when
    the input failed to parse (no selected item, a string [parseUnits]
    rejects, or a negative amount); an accepted input never leaves one. *)
Theorem handleChange_parsing_error_iff value st :
  value ≠ "" →
  (error (handleChange value st) = Some ParsingError
   ↔ parse_amount st value = None).
Proof.
  intros Hne. rewrite handleChange_run, (eqb_empty_false _ Hne).
  destruct (parse_amount st value) as [parsed|]; simpl; [|done].
  by destruct (error st) as [[|m]|].
Qed.

(** [handleMaxClick] in one equation. *)
Lemma handleMaxClick_run st :
  handleMaxClick st
  = match balances st, selectedItem st with
    | Some bs, Some item =>
        let selectedIndex :=
          findIndex (λ t, String.eqb (address t) (address item)) (tokenList st) in
        match at_index (tokenList st) selectedIndex with
        | Some entry =>
            let full := max_amount entry (at_index bs selectedIndex) in
            Some (setInputAmount (formatUnits full (decimals item)) (setAmount full st))
        | None => None
        end
    | _, _ => Some st
    end.
Proof.
  unfold CoinSelection.handleMaxClick. rewrite parseEther_FEE_ESTIMATION.
  destruct (balances st) as [bs|]; [|done].
  destruct (selectedItem st) as [item|]; [|done]. simpl.
  destruct (at_index (tokenList st) _) as [entry|]; [|done]. simpl.
  destruct (at_index bs _) as [b|]; [|done]. simpl.
  by destruct (String.eqb (symbol entry) "ETH").
Qed.

(** X15. The Max action throws exactly when the balances are loaded and
    the selected item's address is not in the token list (reading [.symbol]
    of the missing entry fails); in every other case it completes. *)
Theorem handleMaxClick_throws_iff st :
  handleMaxClick st = None
  ↔ is_Some (balances st)
    ∧ ∃ item, selectedItem st = Some item
              ∧ Forall (λ t, address t ≠ address item) (tokenList st).
Proof.
  rewrite handleMaxClick_run.
  destruct (balances st) as [bs|]; [|split; [done|by intros [[? [=]] _]]].
  destruct (selectedItem st) as [item|]; [|split; [done|by intros [_ (? & [=] & _)]]].
  simpl. rewrite at_index_findIndex.
  destruct (List.find _ (tokenList st)) as [entry|] eqn:Hfind.
  - split; [done|]. intros [_ (item' & [= <-] & Hall)].
    apply find_in_list in Hfind as [Hin Hp].
    rewrite List.Forall_forall in Hall. apply String.eqb_eq in Hp.
    by destruct (Hall entry Hin).
  - split; [|done]. intros _. split; [by eexists|]. exists item. split; [done|].
    apply find_none_iff in Hfind.
    eapply Forall_impl; [exact Hfind|]. intros t Ht. by apply String.eqb_neq.
Qed.

(** X16. Max never asks for more than there is: when the store's token is
    the selected item's, the balance check that follows a Max click does
    not raise the insufficient-balance error; Max itself leaves the stored
    error alone, so that a parsing error outlives both. *)
Theorem handleMaxClick_is_affordable st item st1 :
  selectedItem st = Some item →
  token st = address item →
  handleMaxClick st = Some st1 →
  error st1 = error st
  ∧ ∃ st2,
      checkBalanceEffect st1 = Some st2
      ∧ error st2
        = (if String.eqb (inputAmount st1) "" then error st
           else keep_parsing_error (error st)).
Proof.
  intros Hitem Htoken. rewrite handleMaxClick_run, Hitem.
  destruct (balances st) as [bs|] eqn:Hbs.
  - simpl. destruct (at_index (tokenList st) _) as [entry|] eqn:Hentry; [|done].
    intros [= <-]. split; [done|].
    eexists. split; [apply checkBalanceEffect_run|]. simpl.
    destruct (String.eqb (formatUnits _ _) ""); [done|].
    unfold available_balance, selected_is_native, selected_index. simpl.
    rewrite Hbs, Htoken. simpl. rewrite Hentry.
    destruct (at_index bs _) as [b|]; simpl; [|done].
    destruct (String.eqb (symbol entry) "ETH"); simpl.
    + destruct (Z.gtb_spec (Z.max (b - FEE_ESTIMATION_wei) 0) 0);
        destruct (Z.gtb_spec (Z.max (b - FEE_ESTIMATION_wei) 0)
                    (b - FEE_ESTIMATION_wei)); simpl; try done; lia.
    + destruct (Z.gtb_spec b 0); destruct (Z.gtb_spec b b); simpl; try done; lia.
  - intros [= <-]. split; [done|].
    eexists. split; [apply checkBalanceEffect_run|].
    destruct (String.eqb (inputAmount st) ""); [done|]. simpl.
    unfold available_balance. by rewrite Hbs.
Qed.

(** Every action leaves the hooks' data alone. *)
Lemma step_frame a st st' :
  step a st = Some st' →
  balances st' = balances st ∧ tokenList st' = tokenList st ∧ fees st' = fees st.
Proof.
  destruct a as [value| |item|]; simpl.
  - intros [= <-]. rewrite handleChange_run.
    destruct (String.eqb value ""); [done|]. by destruct (parse_amount st value).
  - rewrite handleMaxClick_run.
    destruct (balances st) as [bs|] eqn:Hbs; [|by intros [= <-]].
    destruct (selectedItem st); [|by intros [= <-]].
    simpl. destruct (at_index (tokenList st) _); [|done]. by intros [= <-].
  - intros [= <-]. by destruct item.
  - destruct (checkBalanceEffect_settles st) as (st2 & -> & -> & _).
    by intros [= <-].
Qed.

Lemma at_index_In {A} (l : list A) i x : at_index l i = Some x → In x l.
Proof.
  unfold at_index. destruct (i <? 0); [done|].
  intros H. apply list_elem_of_In. by eapply list_elem_of_lookup_2.
Qed.

Lemma step_amount_nonneg a st st' :
  (∀ bs, balances st = Some bs → Forall (λ b, 0 ≤ b) bs) →
  0 ≤ amount st → step a st = Some st' → 0 ≤ amount st'.
Proof.
  intros Hbs Hamount. destruct a as [value| |item|]; simpl.
  - intros [= <-]. rewrite handleChange_run.
    destruct (String.eqb value ""); [done|].
    destruct (parse_amount st value) as [parsed|] eqn:Hparse; [|done].
    simpl. by eapply parse_amount_nonneg.
  - rewrite handleMaxClick_run.
    destruct (balances st) as [bs|]; [|by intros [= <-]].
    destruct (selectedItem st) as [sel|]; [|by intros [= <-]].
    simpl. destruct (at_index (tokenList st) _) as [entry|]; [|done].
    intros [= <-]. simpl. unfold max_amount.
    destruct (at_index bs _) as [b|] eqn:Hb; [|done].
    destruct (String.eqb (symbol entry) "ETH"); [lia|].
    specialize (Hbs bs eq_refl). rewrite List.Forall_forall in Hbs.
    apply Hbs. by eapply at_index_In.
  - intros [= <-]. by destruct item.
  - destruct (checkBalanceEffect_settles st) as (st2 & -> & -> & _).
    by intros [= <-].
Qed.

(** X17. The committed amount is never negative: from a form with a
    non-negative amount and non-negative balances, no series of inputs, Max
    clicks, selections and balance checks that completes ends with a
    negative amount; and none of them touches the balances, the token list
    or the fee quote. *)
Theorem replay_amount_nonneg actions st st' :
  (∀ bs, balances st = Some bs → Forall (λ b, 0 ≤ b) bs) →
  0 ≤ amount st →
  replay actions st = Some st' →
  0 ≤ amount st'
  ∧ balances st' = balances st ∧ tokenList st' = tokenList st ∧ fees st' = fees st.
Proof.
  revert st. induction actions as [|a actions IH]; intros st Hbs Hamount; simpl.
  - by intros [= <-].
  - destruct (step a st) as [st1|] eqn:Hstep; simpl; [|done].
    intros Hrest.
    destruct (step_frame _ _ _ Hstep) as (Hb & Hl & Hf).
    destruct (IH st1) as (H1 & H2 & H3 & H4); [|by eapply step_amount_nonneg|done|].
    { intros bs. rewrite Hb. apply Hbs. }
    repeat split; congruence.
Qed.

Lemma step_own_error a st st' :
  own_error (error st) → step a st = Some st' → own_error (error st').
Proof.
  unfold own_error. intros Herr. destruct a as [value| |item|]; simpl.
  - intros [= <-]. rewrite handleChange_run.
    destruct (String.eqb value ""); [by left|].
    destruct (parse_amount st value); simpl; [|by right; left].
    destruct (instanceof_ParsingError (error st)); [by left|done].
  - rewrite handleMaxClick_run.
    destruct (balances st), (selectedItem st); try by intros [= <-].
    simpl. destruct (at_index (tokenList st) _); [|done]. by intros [= <-].
  - intros [= <-]. destruct item; [by left|done].
  - destruct (checkBalanceEffect_settles st) as (st2 & -> & _ & Hcases & _).
    intros [= <-]. destruct Hcases as [-> | [-> | ->] ]; auto.
Qed.

(** X18. The only errors the form ever stores are the parsing error and
    the insufficient-balance error: starting without any other, no series
    of actions stores one. *)
Theorem replay_own_error actions st st' :
  error st = None ∨ error st = Some ParsingError
  ∨ error st = Some insufficient_balance →
  replay actions st = Some st' →
  error st' = None ∨ error st' = Some ParsingError
  ∨ error st' = Some insufficient_balance.
Proof.
  revert st. induction actions as [|a actions IH]; intros st Herr; simpl.
  - by intros [= <-].
  - destruct (step a st) as [st1|] eqn:Hstep; simpl; [|done].
    apply IH. by eapply step_own_error.
Qed.

(** The balance check on a form whose field is not empty. *)
Lemma checkBalanceEffect_error st :
  inputAmount st ≠ "" →
  ∃ st',
    checkBalanceEffect st = Some st'
    ∧ amount st' = amount st ∧ inputAmount st' = inputAmount st
    ∧ (error st' = Some insufficient_balance
       ↔ amount st > 0
         ∧ ∃ available, available_balance st = Some available
                        ∧ amount st > available)
    ∧ (error st' ≠ Some insufficient_balance
       → error st' = keep_parsing_error (error st)).
Proof.
  intros Hne. eexists. split; [apply checkBalanceEffect_run|].
  rewrite (eqb_empty_false _ Hne). simpl.
  destruct (available_balance st) as [available|].
  - destruct (Z.gtb_spec (amount st) 0) as [Hpos|Hle];
      destruct (Z.gtb_spec (amount st) available) as [Hgt|Hngt]; simpl;
      (split; [done|]); (split; [done|]); (split; [|done]).
    + split; [|done]. intros _. split; [lia|]. exists available. split; [done|lia].
    + split; [by intros H; apply keep_parsing_error_not_insufficient in H|].
      intros [_ (a & [= <-] & Ha)]. lia.
    + split; [by intros H; apply keep_parsing_error_not_insufficient in H|].
      intros [H _]. lia.
    + split; [by intros H; apply keep_parsing_error_not_insufficient in H|].
      intros [H _]. lia.
  - split; [done|]. split; [done|]. split; [|done].
    split; [by intros H; apply keep_parsing_error_not_insufficient in H|].
    by intros [_ (a & [=] & _)].
Qed.

Lemma handleChange_accepted value st parsed :
  value ≠ "" → parse_amount st value = Some parsed →
  handleChange value st
  = setError (if instanceof_ParsingError (error st) then None else error st)
      (setAmount parsed (setInputAmount value st)).
Proof.
  intros Hne Hparse. by rewrite handleChange_run, (eqb_empty_false _ Hne), Hparse.
Qed.

(** X19. An accepted input followed by the balance check: the parsed amount
    is committed, and the form ends with the insufficient-balance error when
    that amount is positive and exceeds the available balance, and with no
    error at all otherwise, whatever error was stored before. *)
Theorem accepted_input_checked value st parsed :
  value ≠ "" → parse_amount st value = Some parsed →
  ∃ st',
    checkBalanceEffect (handleChange value st) = Some st'
    ∧ amount st' = parsed ∧ inputAmount st' = value
    ∧ (error st' = Some insufficient_balance
       ↔ parsed > 0
         ∧ ∃ available, available_balance st = Some available ∧ parsed > available)
    ∧ (error st' ≠ Some insufficient_balance → error st' = None).
Proof.
  intros Hne Hparse. rewrite (handleChange_accepted _ _ _ Hne Hparse).
  set (st1 := setError _ _).
  destruct (checkBalanceEffect_error st1 Hne) as (st' & Hrun & Ha & Hi & Hiff & Helse).
  exists st'. split; [done|]. split; [done|]. split; [done|].
  split; [exact Hiff|]. intros Hno. rewrite (Helse Hno). subst st1. simpl.
  by destruct (error st) as [[|m]|].
Qed.

(** X20. A rejected input followed by the balance check: the amount
    committed before stays, and the form ends with the parsing error, unless
    that earlier amount is positive and exceeds the available balance: then
    the insufficient-balance error takes the place of the parsing error. *)
Theorem rejected_input_checked value st :
  value ≠ "" → parse_amount st value = None →
  ∃ st',
    checkBalanceEffect (handleChange value st) = Some st'
    ∧ amount st' = amount st ∧ inputAmount st' = value
    ∧ (error st' = Some insufficient_balance
       ↔ amount st > 0
         ∧ ∃ available, available_balance st = Some available
                        ∧ amount st > available)
    ∧ (error st' ≠ Some insufficient_balance → error st' = Some ParsingError).
Proof.
  intros Hne Hparse.
  rewrite (handleChange_failure parseUnits value st Hne Hparse).
  set (st1 := setError _ _).
  destruct (checkBalanceEffect_error st1 Hne) as (st' & Hrun & Ha & Hi & Hiff & Helse).
  exists st'. split; [done|]. split; [done|]. split; [done|].
  split; [exact Hiff|]. intros Hno. by rewrite (Helse Hno).
Qed.

End ComponentMore.

(** The store's token is listed on the example form; "0xdead" is not. *)
Lemma syncedItem_from_list_witness :
  let listed := Examples.form in
  let unlisted := Examples.form_with "0xdead" 0 "" None None in
  (syncedItem listed = Some Examples.ether
   ∧ In Examples.ether (tokenList listed)
   ∧ (address Examples.ether = token listed
      ∨ (head (tokenList listed) = Some Examples.ether
         ∧ Forall (λ x, address x ≠ token listed) (tokenList listed))))
  ∧ (syncedItem unlisted = Some Examples.usdc
     ∧ In Examples.usdc (tokenList unlisted)
     ∧ (address Examples.usdc = token unlisted
        ∨ (head (tokenList unlisted) = Some Examples.usdc
           ∧ Forall (λ x, address x ≠ token unlisted) (tokenList unlisted))))
  ∧ ∃ t, syncedItem listed = Some t ∧ address t = token listed.
Proof.
  intros listed unlisted.
  split; [split; [reflexivity|]|split; [split; [reflexivity|]|]].
  - apply (proj1 (proj2 (syncedItem_from_list listed)) Examples.ether). reflexivity.
  - apply (proj1 (proj2 (syncedItem_from_list unlisted)) Examples.usdc). reflexivity.
  - apply (proj1 (proj2 (proj2 (syncedItem_from_list listed))) Examples.ether).
    + right. left. reflexivity.
    + reflexivity.
Defined.

(** "abc" is no decimal. *)
Lemma handleChange_parsing_error_iff_witness :
  "abc" ≠ ""
  ∧ (error (handleChange Ethers.parseUnits "abc" Examples.form) = Some ParsingError
     ↔ parse_amount Ethers.parseUnits Examples.form "abc" = None).
Proof.
  split; [discriminate|].
  apply (handleChange_parsing_error_iff Ethers.parseUnits "abc" Examples.form).
  discriminate.
Defined.

(** Max on the example form after a rejected input. *)
Lemma handleMaxClick_is_affordable_witness :
  let st := handleChange Ethers.parseUnits "abc" Examples.form in
  let st1 :=
    setInputAmount "49.996" (setAmount 49996000000000000000 st) in
  selectedItem st = Some Examples.ether
  ∧ token st = address Examples.ether
  ∧ handleMaxClick Ethers.formatUnits st = Some st1
  ∧ error st1 = error st
  ∧ ∃ st2,
      checkBalanceEffect st1 = Some st2
      ∧ error st2
        = (if String.eqb (inputAmount st1) "" then error st
           else keep_parsing_error (error st)).
Proof.
  intros st st1. repeat (split; [reflexivity|]).
  apply (handleMaxClick_is_affordable Ethers.formatUnits st Examples.ether st1);
    reflexivity.
Defined.

Lemma replay_amount_nonneg_witness :
  (∀ bs, balances Examples.form = Some bs → Forall (λ b, 0 ≤ b) bs)
  ∧ 0 ≤ amount Examples.form
  ∧ replay Ethers.parseUnits Ethers.formatUnits Examples.session Examples.form
    = Some Examples.session_end
  ∧ 0 ≤ amount Examples.session_end
  ∧ balances Examples.session_end = balances Examples.form
  ∧ tokenList Examples.session_end = tokenList Examples.form
  ∧ fees Examples.session_end = fees Examples.form.
Proof.
  assert (∀ bs, balances Examples.form = Some bs → Forall (λ b, 0 ≤ b) bs) as Hbs.
  { intros bs [= <-]. repeat constructor; discriminate. }
  assert (replay Ethers.parseUnits Ethers.formatUnits Examples.session Examples.form
          = Some Examples.session_end) as Hrun
    by (vm_compute; reflexivity).
  split; [exact Hbs|]. split; [discriminate|]. split; [exact Hrun|].
  exact (replay_amount_nonneg Ethers.parseUnits Ethers.formatUnits
           Examples.session Examples.form Examples.session_end Hbs
           ltac:(discriminate) Hrun).
Defined.

Lemma replay_own_error_witness :
  (error Examples.form = None ∨ error Examples.form = Some ParsingError
   ∨ error Examples.form = Some insufficient_balance)
  ∧ replay Ethers.parseUnits Ethers.formatUnits Examples.session Examples.form
    = Some Examples.session_end
  ∧ (error Examples.session_end = None
     ∨ error Examples.session_end = Some ParsingError
     ∨ error Examples.session_end = Some insufficient_balance).
Proof.
  assert (replay Ethers.parseUnits Ethers.formatUnits Examples.session Examples.form
          = Some Examples.session_end) as Hrun
    by (vm_compute; reflexivity).
  split; [left; reflexivity|]. split; [exact Hrun|].
  exact (replay_own_error Ethers.parseUnits Ethers.formatUnits
           Examples.session Examples.form Examples.session_end
           (or_introl eq_refl) Hrun).
Defined.

(** 51 ether entered on the example form. *)
Lemma accepted_input_checked_witness :
  let st := Examples.form in
  "51" ≠ ""
  ∧ parse_amount Ethers.parseUnits st "51" = Some 51000000000000000000
  ∧ ∃ st',
      checkBalanceEffect (handleChange Ethers.parseUnits "51" st) = Some st'
      ∧ amount st' = 51000000000000000000 ∧ inputAmount st' = "51"
      ∧ (error st' = Some insufficient_balance
         ↔ 51000000000000000000 > 0
           ∧ ∃ available, available_balance st = Some available
                          ∧ 51000000000000000000 > available)
      ∧ (error st' ≠ Some insufficient_balance → error st' = None).
Proof.
  intros st. split; [discriminate|]. split; [reflexivity|].
  apply (accepted_input_checked Ethers.parseUnits "51" st 51000000000000000000);
    [discriminate|reflexivity].
Defined.

(** "abc" entered while 60 ether are committed. *)
Lemma rejected_input_checked_witness :
  let st :=
    Examples.form_with Examples.ETH_address (60 * 10 ^ 18) "60" None None in
  "abc" ≠ ""
  ∧ parse_amount Ethers.parseUnits st "abc" = None
  ∧ ∃ st',
      checkBalanceEffect (handleChange Ethers.parseUnits "abc" st) = Some st'
      ∧ amount st' = amount st ∧ inputAmount st' = "abc"
      ∧ (error st' = Some insufficient_balance
         ↔ amount st > 0
           ∧ ∃ available, available_balance st = Some available
                          ∧ amount st > available)
      ∧ (error st' ≠ Some insufficient_balance → error st' = Some ParsingError).
Proof.
  intros st. split; [discriminate|]. split; [reflexivity|].
  apply (rejected_input_checked Ethers.parseUnits "abc" st);
    [discriminate|reflexivity].
Defined.

End CoinSelectionMore.
